(** * Rough Set Decision Support Lab: the analytical core of [app.py]

    A shallow embedding of the five core functions of [src/app.py]
    ([equivalence_classes], [lower_upper], [reducts], [extract_rules],
    [inconsistent_objects]) and of the derived values of the run block
    ([boundary], [accuracy]), followed by the properties the specification
    states about them.

    Modelling conventions.
    - The pandas [DataFrame] is a record of its column labels and its rows;
      the index is the default [RangeIndex], so the row at position [i]
      has index label [i].
    - Python exceptions are values of [exn]; a function that may raise
      returns a [result].
    - A Python [dict] whose insertion order is observable is an association
      list; a Python [set] is a [gset]; [sorted] is a merge sort. *)

From Stdlib Require Import QArith DecimalString DecimalNat.
From stdpp Require Import base list sorting gmap strings.

Close Scope Q_scope.

(** ** Exceptions and the error monad *)

(** The only exception the core functions can raise is pandas' [KeyError],
    raised when a label is looked up that is not a column label, or not an
    index label, of the frame. *)
Inductive label : Type :=
  | Column (name : string)
  | Index (idx : nat).

Inductive exn : Type :=
  | KeyError (l : label).

Inductive result (A : Type) : Type :=
  | Ok (a : A)
  | Raise (e : exn).
Arguments Ok {A} a.
Arguments Raise {A} e.

Global Instance label_eq_dec : EqDecision label.
Proof. solve_decision. Defined.

Global Instance exn_eq_dec : EqDecision exn.
Proof. solve_decision. Defined.

Global Instance result_eq_dec {A} `{EqDecision A} : EqDecision (result A).
Proof. solve_decision. Defined.

Global Instance result_bind : MBind result := λ A B f m,
  match m with
  | Ok a => f a
  | Raise e => Raise e
  end.

(** [[f(x) for x in l]] where [f] may raise: evaluation is left to right and
    stops at the first exception. *)
Fixpoint for_each {A B} (f : A → result B) (l : list A) : result (list B) :=
  match l with
  | [] => Ok []
  | x :: l' => y ← f x; ys ← for_each f l'; Ok (y :: ys)
  end.

(** ** The decision table *)

Record DataFrame : Type := {
  columns : list string;
  data : list (list string)
}.

(** [df.iterrows()]: the rows paired with their index labels [0, 1, ...]. *)
Definition iterrows (df : DataFrame) : list (nat * list string) :=
  zip (seq 0 (length (data df))) (data df).

(** [row[a]]: the cell of a row under the column labelled [a]; a label
    that is not a column raises [KeyError].  (Column labels are unique in
    every frame the program builds.) *)
Fixpoint row_get (cols : list string) (row : list string) (a : string)
  : result string :=
  match cols, row with
  | c :: cs, v :: vs => if decide (c = a) then Ok v else row_get cs vs a
  | _, _ => Raise (KeyError (Column a))
  end.

(** [df.loc[idx]]: the row with index label [idx]. *)
Definition loc_row (df : DataFrame) (idx : nat) : result (list string) :=
  match data df !! idx with
  | Some row => Ok row
  | None => Raise (KeyError (Index idx))
  end.

(** [df.loc[idx, a]] *)
Definition loc (df : DataFrame) (idx : nat) (a : string) : result string :=
  row ← loc_row df idx; row_get (columns df) row a.

(** [frame[a]], for a frame given by its column labels and rows. *)
Definition column_of (cols : list string) (rows : list (list string))
    (a : string) : result (list string) :=
  if decide (a ∈ cols)
  then for_each (λ row, row_get cols row a) rows
  else Raise (KeyError (Column a)).

(** [df[a]]: a whole column. *)
Definition column (df : DataFrame) (a : string) : result (list string) :=
  column_of (columns df) (data df) a.

(** The table the program analyses: the columns are the condition attributes
    followed by ["Decision"], all labels differ, every row has one cell per
    column, and no cell is empty (the check of the run block). *)
Definition valid_table (df : DataFrame) (attr_names : list string) : Prop :=
  columns df = attr_names ++ ["Decision"]
  ∧ NoDup (columns df)
  ∧ Forall (λ row, length row = length (columns df)) (data df)
  ∧ Forall (Forall (λ cell, cell ≠ "")) (data df).

Global Instance valid_table_dec df attr_names :
  Decision (valid_table df attr_names).
Proof. unfold valid_table. apply _. Defined.

(** Closed decidable facts about sample tables are settled by evaluation. *)
Ltac by_evaluation := apply (bool_decide_unpack _); vm_compute; exact I.

(** ** [equivalence_classes] *)

(** [groups.setdefault(key, []).append(idx)] on an insertion-ordered dict. *)
Fixpoint setdefault_append (key : list string) (idx : nat)
    (groups : list (list string * list nat)) : list (list string * list nat) :=
  match groups with
  | [] => [(key, [idx])]
  | (k, v) :: rest =>
      if decide (k = key) then (k, v ++ [idx]) :: rest
      else (k, v) :: setdefault_append key idx rest
  end.

(** [tuple(row[a] for a in attributes)] *)
Definition row_key (cols : list string) (attributes : list string)
    (row : list string) : result (list string) :=
  for_each (row_get cols row) attributes.

(** The body of the [for idx, row in df.iterrows()] loop, threaded through
    the remaining rows. *)
Fixpoint eqc_loop (cols attributes : list string)
    (rows : list (nat * list string))
    (groups : list (list string * list nat))
  : result (list (list string * list nat)) :=
  match rows with
  | [] => Ok groups
  | (idx, row) :: rest =>
      key ← row_key cols attributes row;
      eqc_loop cols attributes rest (setdefault_append key idx groups)
  end.

Definition equivalence_classes (df : DataFrame) (attributes : list string)
  : result (list (list nat)) :=
  groups ← eqc_loop (columns df) attributes (iterrows df) [];
  Ok (groups.*2).

(** *** Vocabulary for the result of [equivalence_classes] *)

(** The keys of all rows, in row order. *)
Definition row_keys (df : DataFrame) (attributes : list string)
  : result (list (list string)) :=
  for_each (row_key (columns df) attributes) (data df).

(** The loop without its exceptions: the (index, key) pairs folded into the
    dict from left to right. *)
Definition group_all (iks : list (nat * list string))
    (groups : list (list string * list nat)) : list (list string * list nat) :=
  foldl (λ g p, setdefault_append p.2 p.1 g) groups iks.

(** The indices filed under key [k], in the order they were met. *)
Definition members (k : list string) (iks : list (nat * list string))
  : list nat :=
  (filter (λ p, p.2 = k) iks).*1.

(** [hd_lt v w]: the first id of [v] is below the first id of [w]. *)
Definition hd_lt (v w : list nat) : Prop :=
  match v, w with
  | x :: _, y :: _ => x < y
  | _, _ => False
  end.

Global Instance hd_lt_dec v w : Decision (hd_lt v w).
Proof. destruct v, w; simpl; apply _. Defined.

(** The groups built from the keys of rows [0 .. length keys - 1]. *)
Definition classes (keys : list (list string)) : list (list nat) :=
  (group_all (zip (seq 0 (length keys)) keys) []).*2.

(** The invariant of the loop of [equivalence_classes] once the pairs [iks]
    have been filed into the dict [g]. *)
Record grouped (iks : list (nat * list string))
    (g : list (list string * list nat)) : Prop := {
  grouped_nodup : NoDup g.*1;
  grouped_members : ∀ k v, (k, v) ∈ g → v ≠ [] ∧ v = members k iks;
  grouped_complete : ∀ p, p ∈ iks → p.2 ∈ g.*1;
  grouped_heads : StronglySorted hd_lt g.*2
}.

(** The shape of the list of groups built from the row keys [keys]: the
    groups come in the order of their first ids, each group lists in
    increasing order exactly the rows that carry one key, and every row is
    in a group. *)
Record class_partition (keys : list (list string)) (P : list (list nat))
  : Prop := {
  cp_heads : StronglySorted hd_lt P;
  cp_class : ∀ v, v ∈ P →
    v ≠ [] ∧ StronglySorted lt v ∧ ∃ k, ∀ i, i ∈ v ↔ keys !! i = Some k;
  cp_cover : ∀ i k, keys !! i = Some k → ∃ v, v ∈ P ∧ i ∈ v
}.

(** A partition read as a set of groups, each group a set of object ids:
    neither the order of the groups nor the order of the ids inside a group
    is kept. *)
Definition partition_set (p : list (list nat)) : gset (gset nat) :=
  list_to_set (list_to_set <$> p).

(** ** [lower_upper], [boundary], [accuracy] *)

(** [sorted(s)] for a set of object ids. *)
Definition sorted (s : gset nat) : list nat := merge_sort (≤) (elements s).

(** [set(df.loc[cls]["Decision"])]: the rows of [cls] are selected first,
    then their decision column. *)
Definition decisions_of (df : DataFrame) (cls : list nat)
  : result (gset string) :=
  rows ← for_each (loc_row df) cls;
  ds ← column_of (columns df) rows "Decision";
  Ok (list_to_set ds).

Fixpoint lower_upper_loop (df : DataFrame) (decision_value : string)
    (eq : list (list nat)) (lower upper : list nat)
  : result (list nat * list nat) :=
  match eq with
  | [] => Ok (lower, upper)
  | cls :: rest =>
      decs ← decisions_of df cls;
      if decide (decs = {[ decision_value ]}) then
        lower_upper_loop df decision_value rest (lower ++ cls) (upper ++ cls)
      else if decide (decision_value ∈ decs) then
        lower_upper_loop df decision_value rest lower (upper ++ cls)
      else
        lower_upper_loop df decision_value rest lower upper
  end.

Definition lower_upper (df : DataFrame) (attrs : list string)
    (decision_value : string) : result (list nat * list nat) :=
  eq ← equivalence_classes df attrs;
  '(lower, upper) ← lower_upper_loop df decision_value eq [] [];
  Ok (sorted (list_to_set lower), sorted (list_to_set upper)).

(** The two tests of the loop body, as predicates on a class: [certain] is
    [decs == {decision_value}], [possible] is [decision_value in decs]. *)
Definition certain (df : DataFrame) (d : string) (cls : list nat) : Prop :=
  ∃ decs, decisions_of df cls = Ok decs ∧ decs = {[ d ]}.

Definition possible (df : DataFrame) (d : string) (cls : list nat) : Prop :=
  ∃ decs, decisions_of df cls = Ok decs ∧ d ∈ decs.

(** Two objects are indiscernible under [attrs] when their rows hold the
    same value under each attribute of [attrs]. *)
Definition indiscernible (df : DataFrame) (attrs : list string) (i j : nat)
  : Prop :=
  ∀ a, a ∈ attrs → loc df i a = loc df j a.

(** [sorted(set(upper) - set(lower))] *)
Definition boundary (lower upper : list nat) : list nat :=
  sorted (list_to_set upper ∖ list_to_set lower).

(** [len(lower) / len(upper) if len(upper) else 0].  Python's [/] on two
    integers is the correctly rounded quotient; it is modelled by the exact
    rational, which compares with [0] and [1] the same way. *)
Definition accuracy (lower upper : list nat) : Q :=
  if decide (length upper = 0%nat) then 0%Q
  else (Z.of_nat (length lower) # Pos.of_nat (length upper))%Q.

(** ** [reducts] *)

(** [itertools.combinations(l, r)]: the [r]-element subsequences of [l], in
    lexicographic order of positions. *)
Fixpoint combinations {A} (l : list A) (r : nat) : list (list A) :=
  match r with
  | O => [[]]
  | S r' =>
      match l with
      | [] => []
      | x :: l' => (cons x <$> combinations l' r') ++ combinations l' r
      end
  end.

(** The subsets [reducts] visits:
    [for r in range(1, len(attrs)+1): for combo in combinations(attrs, r)]. *)
Definition candidates (attrs : list string) : list (list string) :=
  r ← seq 1 (length attrs); combinations attrs r.

(** The two nested [for] loops of [reducts], over the combinations still to
    visit. *)
Fixpoint reducts_loop (df : DataFrame) (full : list (list nat))
    (combos : list (list string)) (red : list (list string))
  : result (list (list string)) :=
  match combos with
  | [] => Ok red
  | combo :: rest =>
      p ← equivalence_classes df combo;
      if decide (p = full) then reducts_loop df full rest (red ++ [combo])
      else reducts_loop df full rest red
  end.

Definition reducts (df : DataFrame) (attrs : list string)
  : result (list (list string)) :=
  full ← equivalence_classes df attrs;
  reducts_loop df full (candidates attrs) [].

(** ** [extract_rules] *)

(** [df["Decision"].unique()]: the distinct values, in order of first
    appearance. *)
Fixpoint unique (l : list string) : list string :=
  match l with
  | [] => []
  | x :: l' => x :: filter (λ y, y ≠ x) (unique l')
  end.

(** Python compares [str] values lexicographically by code point, which on
    UTF-8 encoded text is the lexicographic order of the bytes. *)
Definition str_le (s1 s2 : string) : Prop := String.leb s1 s2 = true.

Global Instance str_le_dec s1 s2 : Decision (str_le s1 s2).
Proof. unfold str_le. apply _. Defined.

(** [sorted(s)] for a set of strings. *)
Definition sorted_str (s : gset string) : list string :=
  merge_sort str_le (elements s).

(** The rule text built for one object of a lower approximation. *)
Definition rule_of (df : DataFrame) (attrs : list string) (decision : string)
    (idx : nat) : result string :=
  cond ← for_each (λ a, v ← loc df idx a; Ok (a +:+ "=" +:+ v)) attrs;
  Ok ("IF " +:+ String.concat " AND " cond
        +:+ " THEN Decision = " +:+ decision).

Fixpoint extract_rules_loop (df : DataFrame) (attrs : list string)
    (decisions : list string) (rules : list string) : result (list string) :=
  match decisions with
  | [] => Ok rules
  | decision :: rest =>
      '(lower, _) ← lower_upper df attrs decision;
      new ← for_each (rule_of df attrs decision) lower;
      extract_rules_loop df attrs rest (rules ++ new)
  end.

Definition extract_rules (df : DataFrame) (attrs : list string)
  : result (list string) :=
  ds ← column df "Decision";
  rules ← extract_rules_loop df attrs (unique ds) [];
  Ok (sorted_str (list_to_set rules)).

(** ** [inconsistent_objects] *)

(** [list(decs)] enumerates the set in the order of [elements]; Python leaves
    the iteration order of a set of strings unspecified. *)
Fixpoint inconsistent_loop (df : DataFrame) (eq : list (list nat))
    (conflicts : list (list nat * list string))
  : result (list (list nat * list string)) :=
  match eq with
  | [] => Ok conflicts
  | cls :: rest =>
      decs ← decisions_of df cls;
      if decide (1 < size decs)
      then inconsistent_loop df rest (conflicts ++ [(cls, elements decs)])
      else inconsistent_loop df rest conflicts
  end.

Definition inconsistent_objects (df : DataFrame) (attrs : list string)
  : result (list (list nat * list string)) :=
  eq ← equivalence_classes df attrs;
  inconsistent_loop df eq [].

(** What one turn of the loop of [inconsistent_objects] appends for a
    class, if anything. *)
Definition conflict_of (df : DataFrame) (cls : list nat)
  : option (list nat * list string) :=
  match decisions_of df cls with
  | Ok decs => if decide (1 < size decs) then Some (cls, elements decs) else None
  | Raise _ => None
  end.

(** ** The input section *)

Module Input.

(** [str(n)] for a natural number: its decimal digits. *)
Definition str (n : nat) : string := NilEmpty.string_of_uint (Nat.to_uint n).

(** [attr_names = [f"A{i+1}" for i in range(cols)]] *)
Definition attr_names (cols : nat) : list string :=
  (λ i, "A" +:+ str (i + 1)) <$> seq 0 cols.

(** [columns = attr_names + ["Decision"]] *)
Definition columns (cols : nat) : list string :=
  attr_names cols ++ ["Decision"].

(** The label and the widget key of the cell under column [c] in row [r]:
    [f"{c} (row {r+1})"] and [f"{c}_{r}"]. *)
Definition label (c : string) (r : nat) : string :=
  c +:+ " (row " +:+ str (r + 1) +:+ ")".

Definition key (c : string) (r : nat) : string := c +:+ "_" +:+ str r.

(** No character of [s] is an underscore. *)
Fixpoint underscore_free (s : string) : bool :=
  match s with
  | EmptyString => true
  | String a s' =>
      negb (bool_decide (String a EmptyString = "_")) && underscore_free s'
  end.

(** The widget keys in the order the two loops create the widgets. *)
Definition keys (rows cols : nat) : list string :=
  r ← seq 0 rows; (λ c, key c r) <$> columns cols.

Section table.
(** [st.text_input(label, key=key)]: what the user typed in that widget. *)
Variable text_input : string → string → string.

(** The inner loop: the cells of row [r]. *)
Definition row (cols : nat) (r : nat) : list string :=
  (λ c, text_input (label c r) (key c r)) <$> columns cols.

(** The outer loop: [data]. *)
Definition data (rows cols : nat) : list (list string) :=
  row cols <$> seq 0 rows.

(** [df = pd.DataFrame(data, columns=columns)] *)
Definition df (rows cols : nat) : DataFrame :=
  Build_DataFrame (columns cols) (data rows cols).
End table.

End Input.

(** ** The run block *)

Module Run.

(** [(df == "").any().any()].  The cells are strings, so the other half of
    the test, [df.isna().any().any()], is false. *)
Definition has_empty_cell (df : DataFrame) : bool :=
  existsb (existsb (λ cell, bool_decide (cell = ""))) (data df).

(** What the block writes for one decision value.  The accuracy is written
    as [round(accuracy, 3)]; the record keeps the value before rounding. *)
Record approximation : Type := Approximation {
  a_decision : string;
  a_lower : list nat;
  a_upper : list nat;
  a_boundary : list nat;
  a_accuracy : Q
}.

(** Either the run stops at the validation with an error message, or the
    four parts of the analysis are written. *)
Inductive outcome : Type :=
  | Stopped
  | Analysed (approximations : list approximation)
      (rds : list (list string)) (rules : list string)
      (conflicts : list (list nat * list string)).

Definition approximate (df : DataFrame) (attr_names : list string)
    (d : string) : result approximation :=
  '(lower, upper) ← lower_upper df attr_names d;
  Ok (Approximation d lower upper (boundary lower upper)
        (accuracy lower upper)).

Definition run (df : DataFrame) (attr_names : list string) : result outcome :=
  if has_empty_cell df then Ok Stopped
  else
    ds ← column df "Decision";
    approximations ← for_each (approximate df attr_names) (unique ds);
    rds ← reducts df attr_names;
    rules ← extract_rules df attr_names;
    conflicts ← inconsistent_objects df attr_names;
    Ok (Analysed approximations rds rules conflicts).

End Run.

(** ** Sample tables *)

Module Samples.

(** Objects [(x,y,P)], [(x,y,P)], [(x,z,N)] over [A1], [A2]. *)
Definition consistent3 : DataFrame :=
  {| columns := ["A1"; "A2"; "Decision"];
     data := [["x"; "y"; "P"]; ["x"; "y"; "P"]; ["x"; "z"; "N"]] |}.

(** Objects [(x,P)], [(x,N)] over [A1]. *)
Definition conflict2 : DataFrame :=
  {| columns := ["A1"; "Decision"];
     data := [["x"; "P"]; ["x"; "N"]] |}.

(** [A2] alone separates the objects as finely as [A1] and [A2] do. *)
Definition redundant4 : DataFrame :=
  {| columns := ["A1"; "A2"; "Decision"];
     data := [["a"; "u"; "P"]; ["a"; "v"; "N"];
              ["b"; "w"; "P"]; ["a"; "u"; "P"]] |}.

End Samples.

(** * Properties *)

(** ** The error monad and comprehensions *)

Lemma bind_Ok {A B} (m : result A) (f : A → result B) b :
  m ≫= f = Ok b ↔ ∃ a, m = Ok a ∧ f a = Ok b.
Proof.
  destruct m as [a|e]; simpl.
  - split; [eauto | intros (a' & [= ->] & ?); done].
  - split; [done | intros (a' & ? & ?); done].
Qed.

Section for_each.
Context {A B : Type}.
Implicit Types (f g : A → result B) (l : list A) (ys : list B).

Lemma for_each_Forall2 f l ys :
  for_each f l = Ok ys ↔ Forall2 (λ x y, f x = Ok y) l ys.
Proof.
  revert ys. induction l as [|x l IH]; intros ys; simpl.
  - split; [intros [= <-]; constructor | by inversion 1].
  - split.
    + intros H. destruct (f x) as [y|] eqn:Hx; [|done]. simpl in H.
      destruct (for_each f l) as [ys'|] eqn:Hl; [|done]. simpl in H.
      injection H as <-. constructor; [done | by apply IH].
    + inversion 1 as [|? y ? ys' Hx Hl]; subst.
      rewrite Hx. simpl. apply IH in Hl. by rewrite Hl.
Qed.

Lemma for_each_total f l :
  (∀ x, x ∈ l → ∃ y, f x = Ok y) → ∃ ys, for_each f l = Ok ys.
Proof.
  induction l as [|x l IH]; intros H; simpl; [eauto|].
  destruct (H x) as [y ->]; [left|]. simpl.
  destruct IH as [ys ->]; [intros; apply H; by right|]. simpl. eauto.
Qed.

Lemma for_each_length f l ys : for_each f l = Ok ys → length ys = length l.
Proof.
  rewrite for_each_Forall2. intros H. symmetry. by eapply Forall2_length.
Qed.

Lemma for_each_lookup f l ys i y :
  for_each f l = Ok ys →
  ys !! i = Some y ↔ ∃ x, l !! i = Some x ∧ f x = Ok y.
Proof.
  rewrite for_each_Forall2. intros H. split.
  - intros Hy. destruct (Forall2_lookup_r _ _ _ _ _ H Hy) as (x & ? & ?). eauto.
  - intros (x & Hx & Hfx).
    destruct (Forall2_lookup_l _ _ _ _ _ H Hx) as (y' & ? & ?). congruence.
Qed.

Lemma for_each_elem_of f l ys y :
  for_each f l = Ok ys → y ∈ ys ↔ ∃ x, x ∈ l ∧ f x = Ok y.
Proof.
  intros H. rewrite list_elem_of_lookup. split.
  - intros (i & Hi). apply (for_each_lookup _ _ _ _ _ H) in Hi as (x & ? & ?).
    exists x. split; [|done]. by eapply list_elem_of_lookup_2.
  - intros (x & (i & Hi)%list_elem_of_lookup & Hfx).
    exists i. apply (for_each_lookup _ _ _ _ _ H). eauto.
Qed.

(** The first element on which [f] raises decides the exception. *)
Lemma for_each_raise f l1 x l2 e :
  (∀ x', x' ∈ l1 → ∃ y, f x' = Ok y) → f x = Raise e →
  for_each f (l1 ++ x :: l2) = Raise e.
Proof.
  induction l1 as [|x' l1 IH]; intros Hok Hx; simpl.
  - by rewrite Hx.
  - destruct (Hok x') as [y ->]; [left|]. simpl.
    rewrite IH; [done | | done]. intros; apply Hok; by right.
Qed.

Lemma for_each_ext f g l :
  (∀ x, x ∈ l → f x = g x) → for_each f l = for_each g l.
Proof.
  induction l as [|x l IH]; intros H; simpl; [done|].
  rewrite H; [|left]. rewrite IH; [done|]. intros; apply H; by right.
Qed.

Lemma for_each_agree f g l ys :
  for_each f l = Ok ys → for_each g l = Ok ys → ∀ x, x ∈ l → f x = g x.
Proof.
  rewrite !for_each_Forall2. revert ys.
  induction l as [|x l IH]; intros ys Hf Hg z Hz; [by inversion Hz|].
  inversion Hf; inversion Hg; simplify_eq.
  apply elem_of_cons in Hz as [->|Hz]; [congruence | eauto].
Qed.
End for_each.

(** ** Cell lookup *)

Lemma row_get_total cols row a :
  length row = length cols → a ∈ cols → ∃ v, row_get cols row a = Ok v.
Proof.
  revert row. induction cols as [|c cols IH]; intros row Hlen Ha.
  - by inversion Ha.
  - destruct row as [|v row]; [done|]. simpl. case_decide; [eauto|].
    apply IH; [by injection Hlen|]. by apply elem_of_cons in Ha as [->|?].
Qed.

Lemma row_get_missing cols row a :
  a ∉ cols → row_get cols row a = Raise (KeyError (Column a)).
Proof.
  revert row. induction cols as [|c cols IH]; intros row Ha; [done|].
  destruct row as [|v row]; [done|]. simpl.
  apply not_elem_of_cons in Ha as [? ?]. case_decide; [done | by apply IH].
Qed.

Lemma row_key_total cols attributes row :
  length row = length cols → attributes ⊆ cols →
  ∃ k, row_key cols attributes row = Ok k.
Proof.
  intros Hlen Hsub. apply for_each_total. intros a Ha.
  apply row_get_total; [done | by apply Hsub].
Qed.

(** Rows that agree on the key over [attributes] agree on the key over any
    part of [attributes]. *)
Lemma row_key_agree cols attributes sub row1 row2 k :
  sub ⊆ attributes →
  row_key cols attributes row1 = Ok k → row_key cols attributes row2 = Ok k →
  row_key cols sub row1 = row_key cols sub row2.
Proof.
  intros Hsub H1 H2. apply for_each_ext. intros a Ha.
  eapply for_each_agree; [exact H1 | exact H2 | by apply Hsub].
Qed.

(** ** The grouping loop *)

Lemma setdefault_append_fresh k i g :
  k ∉ g.*1 → setdefault_append k i g = g ++ [(k, [i])].
Proof.
  induction g as [|[k' v] g IH]; intros Hk; simpl; [done|].
  simpl in Hk. apply not_elem_of_cons in Hk as [? ?].
  case_decide; [congruence|]. by rewrite IH.
Qed.

Lemma setdefault_append_found k i g :
  k ∈ g.*1 →
  ∃ g1 v g2, g = g1 ++ (k, v) :: g2
    ∧ setdefault_append k i g = g1 ++ (k, v ++ [i]) :: g2.
Proof.
  induction g as [|[k' v] g IH]; intros Hk; simpl; [by inversion Hk|].
  case_decide as Hkk.
  - subst k'. by exists [], v, g.
  - simpl in Hk. apply elem_of_cons in Hk as [?|Hk]; [congruence|].
    destruct (IH Hk) as (g1 & v' & g2 & -> & ->).
    by exists ((k', v) :: g1), v', g2.
Qed.

Lemma members_snoc k iks i k' :
  members k (iks ++ [(i, k')])
  = members k iks ++ (if decide (k' = k) then [i] else []).
Proof.
  unfold members. rewrite filter_app, fmap_app. f_equal.
  rewrite filter_cons. simpl. by case_decide.
Qed.

Lemma elem_of_members k iks i : i ∈ members k iks ↔ (i, k) ∈ iks.
Proof.
  unfold members. rewrite list_elem_of_fmap. split.
  - intros ([i' k'] & -> & [Hk ?]%list_elem_of_filter). simpl in *. by subst.
  - intros H. exists (i, k). split; [done|]. by apply list_elem_of_filter.
Qed.

Lemma members_sorted k iks :
  StronglySorted lt iks.*1 → StronglySorted lt (members k iks).
Proof.
  unfold members. induction iks as [|[i k'] iks IH]; simpl; [constructor|].
  intros [Hi Hs]%StronglySorted_cons. rewrite filter_cons. simpl.
  case_decide; [|by apply IH]. simpl. apply StronglySorted_cons.
  split; [|by apply IH]. rewrite Forall_forall in Hi |- *.
  intros j ([j' k''] & -> & [_ ?]%list_elem_of_filter)%list_elem_of_fmap.
  apply Hi. by apply (list_elem_of_fmap_2 fst _ (j', k'')).
Qed.

Lemma hd_lt_app_l v w u : v ≠ [] → hd_lt (v ++ w) u ↔ hd_lt v u.
Proof. by destruct v. Qed.

Lemma hd_lt_app_r v w u : v ≠ [] → hd_lt u (v ++ w) ↔ hd_lt u v.
Proof. by destruct v. Qed.

Lemma hd_lt_irrefl v : ¬ hd_lt v v.
Proof. destruct v; simpl; lia. Qed.

Global Instance hd_lt_antisymm : AntiSymm (=) hd_lt.
Proof. intros [|x v] [|y w]; simpl; try done; lia. Qed.

(** Appending to one group of a head-sorted list of groups keeps it
    head-sorted. *)
Lemma hd_sorted_extend l1 v l2 w :
  v ≠ [] →
  StronglySorted hd_lt (l1 ++ v :: l2) →
  StronglySorted hd_lt (l1 ++ (v ++ w) :: l2).
Proof.
  intros Hv. rewrite !StronglySorted_app, !StronglySorted_cons, !Forall_forall.
  intros (H12 & H1 & Hv2 & H2). split_and!; [|done| |done].
  - intros x1 x2 Hx1 [->|Hx2]%elem_of_cons.
    + apply hd_lt_app_r; [done|]. apply H12; [done | left].
    + apply H12; [done | by right].
  - intros x Hx. apply hd_lt_app_l; [done | by apply Hv2].
Qed.

Lemma grouped_nil : grouped [] [].
Proof.
  split; simpl; [constructor | | | constructor].
  - intros k v H. by inversion H.
  - intros p H. by inversion H.
Qed.

Lemma grouped_step iks g i k :
  grouped iks g → (∀ p, p ∈ iks → p.1 < i) →
  grouped (iks ++ [(i, k)]) (setdefault_append k i g).
Proof.
  intros [Hnd Hmem Hcompl Hheads] Hlt.
  destruct (decide (k ∈ g.*1)) as [Hk|Hk].
  - destruct (setdefault_append_found k i g Hk) as (g1 & v & g2 & -> & ->).
    rewrite fmap_app, fmap_cons in Hnd. rewrite fmap_app, fmap_cons in Hheads.
    simpl in *.
    split.
    + by rewrite fmap_app, fmap_cons.
    + intros k' v' Hin. rewrite members_snoc.
      assert ((k', v') = (k, v ++ [i]) ∨ (k' ≠ k ∧ (k', v') ∈ g1 ++ (k, v) :: g2))
        as [[= -> ->]|[Hne Hin']].
      { apply NoDup_app in Hnd as (_ & Hd1 & [Hd2 _]%NoDup_cons).
        apply elem_of_app in Hin as [Hin|[Hin|Hin]%elem_of_cons]; [right|by left|right].
        - split; [|apply elem_of_app; by left]. intros ->. apply (Hd1 k); [|left].
          by apply (list_elem_of_fmap_2 fst _ (k, v')).
        - split; [|apply elem_of_app; right; by right]. intros ->. apply Hd2.
          by apply (list_elem_of_fmap_2 fst _ (k, v')). }
      * destruct (Hmem k v) as [? Hv]; [apply elem_of_app; right; left|].
        rewrite <-Hv, decide_True by done. split; [by destruct v | done].
      * rewrite decide_False by done. rewrite app_nil_r. by apply Hmem.
    + intros p [Hp|Hp%list_elem_of_singleton]%elem_of_app; [|subst p].
      * rewrite fmap_app, fmap_cons. simpl.
        specialize (Hcompl p Hp). by rewrite fmap_app, fmap_cons in Hcompl.
      * rewrite fmap_app, fmap_cons. simpl. apply elem_of_app; right; left.
    + rewrite fmap_app, fmap_cons. simpl. apply hd_sorted_extend; [|done].
      by destruct (Hmem k v) as [? _]; [apply elem_of_app; right; left|].
  - rewrite setdefault_append_fresh by done. split.
    + rewrite fmap_app. apply NoDup_app. split_and!; [done| |apply NoDup_singleton].
      intros k' Hk' ->%list_elem_of_singleton. done.
    + intros k' v' [Hin|Hin%list_elem_of_singleton]%elem_of_app;
        rewrite members_snoc.
      * rewrite decide_False, app_nil_r; [by apply Hmem|].
        intros ->. apply Hk. by apply (list_elem_of_fmap_2 fst _ (k', v')).
      * injection Hin as -> ->. rewrite decide_True by done. split; [done|].
        assert (members k iks = []) as ->; [|done].
        apply elem_of_nil_inv. intros j Hj%elem_of_members.
        apply Hk. by apply (Hcompl (j, k)).
    + intros p [Hp|Hp%list_elem_of_singleton]%elem_of_app; [|subst p];
        rewrite fmap_app; apply elem_of_app; [left; by apply Hcompl | right; left].
    + rewrite fmap_app. apply StronglySorted_app_2; [|done|].
      * intros v w ([k' v'] & -> & Hin)%list_elem_of_fmap ->%list_elem_of_singleton.
        simpl. destruct (Hmem _ _ Hin) as [Hne Hv].
        destruct v' as [|j v']; [done|]. simpl.
        assert (j ∈ members k' iks) as Hj%elem_of_members by (rewrite <-Hv; left).
        by apply (Hlt (j, k')).
      * repeat constructor.
Qed.

Lemma grouped_group_all more iks g :
  grouped iks g → StronglySorted lt (iks ++ more).*1 →
  grouped (iks ++ more) (group_all more g).
Proof.
  revert iks g. induction more as [|[i k] more IH]; intros iks g Hg Hs; simpl.
  - by rewrite app_nil_r.
  - rewrite (assoc_L (++) iks [(i, k)] more : iks ++ (i, k) :: more = _) in Hs |- *.
    apply IH; [|done]. apply grouped_step; [done|].
    intros p Hp. rewrite !fmap_app in Hs.
    apply StronglySorted_app_1_l in Hs.
    eapply StronglySorted_app_1_elem_of; [exact Hs| |left].
    by apply list_elem_of_fmap_2.
Qed.

(** The loop computes every key in row order, and files the pairs. *)
Lemma eqc_loop_unfold cols attributes rows g :
  eqc_loop cols attributes rows g
  = (keys ← for_each (row_key cols attributes) rows.*2;
     Ok (group_all (zip rows.*1 keys) g)).
Proof.
  revert g. induction rows as [|[i row] rows IH]; intros g; simpl; [done|].
  destruct (row_key cols attributes row) as [k|e]; simpl; [|done].
  rewrite IH. by destruct (for_each _ _).
Qed.

Lemma equivalence_classes_unfold df attributes :
  equivalence_classes df attributes
  = (keys ← row_keys df attributes; Ok (classes keys)).
Proof.
  unfold equivalence_classes, row_keys, iterrows. rewrite eqc_loop_unfold.
  rewrite snd_zip, fst_zip by (rewrite length_seq; lia).
  destruct (for_each _ _) as [keys|e] eqn:Hk; simpl; [|done].
  unfold classes. by rewrite (for_each_length _ _ _ Hk).
Qed.

Lemma equivalence_classes_Ok df attributes P :
  equivalence_classes df attributes = Ok P ↔
  ∃ keys, row_keys df attributes = Ok keys ∧ P = classes keys.
Proof.
  rewrite equivalence_classes_unfold, bind_Ok. split.
  - intros (keys & ? & [= <-]). eauto.
  - intros (keys & ? & ->). eauto.
Qed.

(** ** What the groups are *)

Lemma elem_of_zip_seq {A} (l : list A) i x :
  (i, x) ∈ zip (seq 0 (length l)) l ↔ l !! i = Some x.
Proof.
  rewrite list_elem_of_lookup. split.
  - intros (j & [[-> _]%lookup_seq ?]%lookup_zip_Some). done.
  - intros H. exists i. apply lookup_zip_Some. split; [|done].
    apply lookup_seq. split; [done|]. by eapply lookup_lt_Some.
Qed.

Lemma seq_sorted j n : StronglySorted lt (seq j n).
Proof.
  revert j. induction n as [|n IH]; intros j; simpl; constructor; [done|].
  apply Forall_forall. intros x Hx%elem_of_seq. lia.
Qed.

Lemma StronglySorted_lookup_lt {A} (R : relation A) l a b x y :
  StronglySorted R l → l !! a = Some x → l !! b = Some y → a < b → R x y.
Proof.
  intros Hs. revert a b. induction Hs as [|z l Hs IH Hz]; intros a b Ha Hb Hab.
  - done.
  - destruct b as [|b]; [lia|]. simpl in Hb. destruct a as [|a]; simpl in Ha.
    + injection Ha as ->. rewrite Forall_forall in Hz. apply Hz.
      by eapply list_elem_of_lookup_2.
    + apply (IH a b); [done..|lia].
Qed.

(** Strictly increasing lists with the same elements are the same list. *)
Lemma sorted_ext (v w : list nat) :
  StronglySorted lt v → StronglySorted lt w → (∀ i, i ∈ v ↔ i ∈ w) → v = w.
Proof.
  intros Hv Hw Hvw.
  assert (∀ l, StronglySorted lt l → NoDup l) as Hnd.
  { induction 1 as [|x l ? IH Hx]; constructor; [|done].
    rewrite Forall_forall in Hx. intros ?%Hx. lia. }
  apply (StronglySorted_unique_strong lt); [intros; lia|done..|].
  apply NoDup_Permutation; auto.
Qed.

Lemma classes_partition keys : class_partition keys (classes keys).
Proof.
  unfold classes. set (iks := zip (seq 0 (length keys)) keys).
  assert (iks.*1 = seq 0 (length keys)) as Hfst.
  { unfold iks. apply fst_zip. by rewrite length_seq. }
  assert (grouped iks (group_all iks [])) as [Hnd Hmem Hcompl Hheads].
  { apply (grouped_group_all iks [] []); [apply grouped_nil|].
    simpl. rewrite Hfst. apply seq_sorted. }
  split; [done| |].
  - intros v ([k v'] & -> & Hin)%list_elem_of_fmap. simpl.
    destruct (Hmem _ _ Hin) as [Hne ->]. split_and!; [done| |].
    + apply members_sorted. rewrite Hfst. apply seq_sorted.
    + exists k. intros i. rewrite elem_of_members. apply elem_of_zip_seq.
  - intros i k Hik. apply elem_of_zip_seq in Hik.
    pose proof Hik as Hik'. apply elem_of_zip_seq in Hik'.
    apply Hcompl, list_elem_of_fmap in Hik as ([k' v] & Hk & Hin).
    simpl in Hk. subst k'. exists v. split.
    + by apply (list_elem_of_fmap_2 snd _ (k, v)).
    + destruct (Hmem _ _ Hin) as [_ ->]. apply elem_of_members.
      by apply elem_of_zip_seq.
Qed.

Section class_partition.
Context {keys : list (list string)} {P : list (list nat)}.
Context (HP : class_partition keys P).

Lemma cp_bound v i : v ∈ P → i ∈ v → i < length keys.
Proof.
  intros Hv Hi. destruct (cp_class _ _ HP v Hv) as (_ & _ & k & Hk).
  apply Hk in Hi. by eapply lookup_lt_Some.
Qed.

Lemma cp_same_key v i j : v ∈ P → i ∈ v → j ∈ v → keys !! i = keys !! j.
Proof.
  intros Hv Hi Hj. destruct (cp_class _ _ HP v Hv) as (_ & _ & k & Hk).
  apply Hk in Hi, Hj. congruence.
Qed.

Lemma cp_closed v i j : v ∈ P → i ∈ v → keys !! j = keys !! i → j ∈ v.
Proof.
  intros Hv Hi Hj. destruct (cp_class _ _ HP v Hv) as (_ & _ & k & Hk).
  apply Hk. rewrite Hj. by apply Hk.
Qed.

(** Two groups that share an id are the same group. *)
Lemma cp_unique v w i : v ∈ P → w ∈ P → i ∈ v → i ∈ w → v = w.
Proof.
  intros Hv Hw Hiv Hiw.
  destruct (cp_class _ _ HP v Hv) as (_ & Hsv & kv & Hkv).
  destruct (cp_class _ _ HP w Hw) as (_ & Hsw & kw & Hkw).
  apply sorted_ext; [done..|]. intros j. rewrite Hkv, Hkw.
  apply Hkv in Hiv. apply Hkw in Hiw. by replace kw with kv by congruence.
Qed.

Lemma cp_lookup_inj a b v : P !! a = Some v → P !! b = Some v → a = b.
Proof.
  intros Ha Hb. destruct (Nat.lt_trichotomy a b) as [Hab|[Hab|Hab]]; [|done|].
  - destruct (hd_lt_irrefl v).
    by apply (StronglySorted_lookup_lt hd_lt P a b v v (cp_heads _ _ HP)).
  - destruct (hd_lt_irrefl v).
    by apply (StronglySorted_lookup_lt hd_lt P b a v v (cp_heads _ _ HP)).
Qed.

Lemma cp_disjoint a b v w :
  a ≠ b → P !! a = Some v → P !! b = Some w → v ## w.
Proof.
  intros Hab Ha Hb i Hiv Hiw. apply Hab.
  assert (v = w) as ->.
  { apply (cp_unique v w i); eauto using list_elem_of_lookup_2. }
  by eapply cp_lookup_inj.
Qed.

Lemma cp_NoDup : NoDup P.
Proof.
  apply NoDup_alt. intros a b v. apply cp_lookup_inj.
Qed.
End class_partition.

(** ** Valid tables raise no exception *)

Lemma valid_table_attrs df attr_names attributes :
  valid_table df attr_names → attributes ⊆ attr_names →
  attributes ⊆ columns df.
Proof.
  intros (-> & _) Hsub a Ha. apply elem_of_app. left. by apply Hsub.
Qed.

Lemma valid_table_decision df attr_names :
  valid_table df attr_names → "Decision" ∈ columns df.
Proof. intros (-> & _). apply elem_of_app. right. left. Qed.

Lemma valid_table_row df attr_names i row :
  valid_table df attr_names → data df !! i = Some row →
  length row = length (columns df).
Proof.
  intros (_ & _ & Hrows & _) Hi. rewrite Forall_forall in Hrows.
  apply Hrows. by eapply list_elem_of_lookup_2.
Qed.

Lemma row_keys_lookup df attributes keys i k :
  row_keys df attributes = Ok keys →
  keys !! i = Some k ↔
  ∃ row, data df !! i = Some row ∧ row_key (columns df) attributes row = Ok k.
Proof. apply for_each_lookup. Qed.

Lemma row_keys_total df attr_names attributes :
  valid_table df attr_names → attributes ⊆ columns df →
  ∃ keys, row_keys df attributes = Ok keys ∧ length keys = length (data df).
Proof.
  intros Hv Hsub.
  destruct (for_each_total (row_key (columns df) attributes) (data df))
    as [keys Hk].
  - intros row (i & Hi)%list_elem_of_lookup.
    apply row_key_total; [by eapply valid_table_row | done].
  - exists keys. split; [done | by eapply for_each_length].
Qed.

Lemma equivalence_classes_total df attr_names attributes :
  valid_table df attr_names → attributes ⊆ columns df →
  ∃ keys P, row_keys df attributes = Ok keys
    ∧ length keys = length (data df)
    ∧ equivalence_classes df attributes = Ok P
    ∧ class_partition keys P.
Proof.
  intros Hv Hsub.
  destruct (row_keys_total df attr_names attributes Hv Hsub) as (keys & Hk & Hlen).
  exists keys, (classes keys). split_and!; [done..| |apply classes_partition].
  rewrite equivalence_classes_unfold, Hk. done.
Qed.

(** Rows with the same key over [attributes] have the same key over any
    part of [attributes]. *)
Lemma row_keys_coarser df attributes sub keys keys' i j :
  sub ⊆ attributes →
  row_keys df attributes = Ok keys → row_keys df sub = Ok keys' →
  i < length keys → keys !! i = keys !! j → keys' !! i = keys' !! j.
Proof.
  intros Hsub Hk Hk' Hi Hij.
  destruct (lookup_lt_is_Some_2 keys i Hi) as [k Hki].
  assert (keys !! j = Some k) as Hkj by congruence.
  apply (row_keys_lookup _ _ _ _ _ Hk) in Hki as (rowi & Hrowi & Hkeyi).
  apply (row_keys_lookup _ _ _ _ _ Hk) in Hkj as (rowj & Hrowj & Hkeyj).
  pose proof (row_key_agree _ _ _ _ _ _ Hsub Hkeyi Hkeyj) as Hagree.
  destruct (keys' !! i) as [k'|] eqn:Hi'.
  - apply (row_keys_lookup _ _ _ _ _ Hk') in Hi' as (row & Hrow & Hkey).
    symmetry. apply (row_keys_lookup _ _ _ _ _ Hk').
    exists rowj. split; [done|]. rewrite <-Hagree. congruence.
  - destruct (keys' !! j) as [k'|] eqn:Hj'; [|done].
    apply (row_keys_lookup _ _ _ _ _ Hk') in Hj' as (row & Hrow & Hkey).
    assert (keys' !! i = Some k') as Hc; [|congruence].
    apply (row_keys_lookup _ _ _ _ _ Hk').
    exists rowi. split; [done|]. rewrite Hagree. congruence.
Qed.

(** ** C4: the groups form a partition of the object ids *)

(** C4.  On a valid decision table, for every list of condition attributes
    (empty or not), [equivalence_classes] returns without exception, and the
    groups it returns are non-empty, free of repeated ids, pairwise disjoint,
    and their union is exactly the set of row indices of the table. *)
Theorem equivalence_classes_is_partition df attr_names attributes :
  valid_table df attr_names → attributes ⊆ attr_names →
  ∃ P, equivalence_classes df attributes = Ok P
    ∧ Forall (λ g, g ≠ [] ∧ NoDup g) P
    ∧ (∀ a b g h, a ≠ b → P !! a = Some g → P !! b = Some h → g ## h)
    ∧ (∀ i, (∃ g, g ∈ P ∧ i ∈ g) ↔ i < length (data df)).
Proof.
  intros Hv Hsub.
  destruct (equivalence_classes_total df attr_names attributes Hv)
    as (keys & P & Hk & Hlen & HP & Hcp); [by eapply valid_table_attrs|].
  exists P. split_and!; [done| | |].
  - apply Forall_forall. intros g Hg.
    destruct (cp_class _ _ Hcp g Hg) as (Hne & Hs & _). split; [done|].
    clear -Hs. induction Hs as [|x l ? IH Hx]; constructor; [|done].
    rewrite Forall_forall in Hx. intros ?%Hx. lia.
  - intros a b g h. apply (cp_disjoint Hcp).
  - intros i. rewrite <-Hlen. split.
    + intros (g & Hg & Hi). by eapply (cp_bound Hcp).
    + intros [k Hi]%lookup_lt_is_Some_2. by eapply (cp_cover _ _ Hcp).
Qed.

Lemma equivalence_classes_is_partition_witness :
  valid_table Samples.redundant4 ["A1"; "A2"] ∧ ["A2"] ⊆ ["A1"; "A2"] ∧
  ∃ P, equivalence_classes Samples.redundant4 ["A2"] = Ok P
    ∧ Forall (λ g, g ≠ [] ∧ NoDup g) P
    ∧ (∀ a b g h, a ≠ b → P !! a = Some g → P !! b = Some h → g ## h)
    ∧ (∀ i, (∃ g, g ∈ P ∧ i ∈ g) ↔ i < length (data Samples.redundant4)).
Proof.
  assert (valid_table Samples.redundant4 ["A1"; "A2"]) as Hv
    by by_evaluation.
  assert (["A2"] ⊆ ["A1"; "A2"]) as Hsub
    by by_evaluation.
  split_and!; [done..|].
  exact (equivalence_classes_is_partition _ _ _ Hv Hsub).
Defined.

(** ** C6: more attributes give a finer partition *)

(** C6.  On a valid decision table, every equivalence class under the full
    list of condition attributes is contained in an equivalence class under
    any list of attributes drawn from it. *)
Theorem full_partition_refines df attr_names sub :
  valid_table df attr_names → sub ⊆ attr_names →
  ∃ F P, equivalence_classes df attr_names = Ok F
    ∧ equivalence_classes df sub = Ok P
    ∧ ∀ g, g ∈ F → ∃ h, h ∈ P ∧ g ⊆ h.
Proof.
  intros Hv Hsub.
  destruct (equivalence_classes_total df attr_names attr_names Hv)
    as (keys & F & Hk & Hlen & HF & HcF); [by eapply valid_table_attrs|].
  destruct (equivalence_classes_total df attr_names sub Hv)
    as (keys' & P & Hk' & Hlen' & HP & HcP); [by eapply valid_table_attrs|].
  exists F, P. split_and!; [done..|]. intros g Hg.
  destruct (cp_class _ _ HcF g Hg) as (Hne & _ & _).
  destruct g as [|i g']; [done|]. set (g := i :: g') in *.
  assert (i ∈ g) as Hi by left.
  assert (i < length keys) as Hlt by by eapply (cp_bound HcF).
  destruct (lookup_lt_is_Some_2 keys' i) as [k' Hk'i]; [lia|].
  destruct (cp_cover _ _ HcP i k' Hk'i) as (h & Hh & Hih).
  exists h. split; [done|]. intros j Hj.
  apply (cp_closed HcP h i j Hh Hih). symmetry.
  apply (row_keys_coarser df attr_names sub keys keys' i j Hsub Hk Hk' Hlt).
  by apply (cp_same_key HcF g).
Qed.

Lemma full_partition_refines_witness :
  valid_table Samples.redundant4 ["A1"; "A2"] ∧ ["A1"] ⊆ ["A1"; "A2"] ∧
  ∃ F P, equivalence_classes Samples.redundant4 ["A1"; "A2"] = Ok F
    ∧ equivalence_classes Samples.redundant4 ["A1"] = Ok P
    ∧ ∀ g, g ∈ F → ∃ h, h ∈ P ∧ g ⊆ h.
Proof.
  assert (valid_table Samples.redundant4 ["A1"; "A2"]) as Hv
    by by_evaluation.
  assert (["A1"] ⊆ ["A1"; "A2"]) as Hsub
    by by_evaluation.
  split_and!; [done..|].
  exact (full_partition_refines _ _ _ Hv Hsub).
Defined.

(** ** [sorted] *)

Lemma elem_of_sorted s x : x ∈ sorted s ↔ x ∈ s.
Proof. unfold sorted. by rewrite merge_sort_Permutation, elem_of_elements. Qed.

Lemma NoDup_sorted s : NoDup (sorted s).
Proof. unfold sorted. rewrite merge_sort_Permutation. apply NoDup_elements. Qed.

Lemma sorted_increasing s : StronglySorted lt (sorted s).
Proof.
  pose proof (NoDup_sorted s) as Hnd.
  assert (StronglySorted le (sorted s)) as Hs
    by apply (StronglySorted_merge_sort _).
  induction Hs as [|x l Hs IH Hx]; constructor.
  - apply IH. by apply NoDup_cons in Hnd as [_ ?].
  - apply NoDup_cons in Hnd as [Hx' _]. rewrite Forall_forall in Hx |- *.
    intros y Hy. specialize (Hx y Hy).
    assert (x ≠ y) by (by intros ->). lia.
Qed.

Lemma sorted_empty_iff s : sorted s = [] ↔ s = ∅.
Proof.
  split.
  - intros Hs. apply set_eq. intros x. rewrite <-elem_of_sorted, Hs.
    by rewrite elem_of_nil, elem_of_empty.
  - intros ->. apply elem_of_nil_inv. intros x.
    rewrite elem_of_sorted. apply not_elem_of_empty.
Qed.

(** ** Decisions of a class *)

Lemma loc_total df attr_names i a :
  valid_table df attr_names → i < length (data df) → a ∈ columns df →
  ∃ v, loc df i a = Ok v.
Proof.
  intros Hv [row Hrow]%lookup_lt_is_Some_2 Ha. unfold loc, loc_row.
  rewrite Hrow. apply row_get_total; [by eapply valid_table_row | done].
Qed.

Lemma loc_Ok_lt df i a v : loc df i a = Ok v → i < length (data df).
Proof.
  unfold loc, loc_row. destruct (data df !! i) eqn:Hi; [|done].
  intros _. by eapply lookup_lt_Some.
Qed.

Lemma elem_of_decisions_of df cls decs d :
  decisions_of df cls = Ok decs →
  d ∈ decs ↔ ∃ i, i ∈ cls ∧ loc df i "Decision" = Ok d.
Proof.
  unfold decisions_of, column_of.
  intros (rows & Hrows & (ds & Hds & [= <-])%bind_Ok)%bind_Ok.
  case_decide; [|done].
  rewrite elem_of_list_to_set, (for_each_elem_of _ _ _ _ Hds). split.
  - intros (row & (i & Hi & Hrow)%(for_each_elem_of _ _ _ _ Hrows) & Hd).
    exists i. split; [done|]. unfold loc. by rewrite Hrow.
  - intros (i & Hi & (row & Hrow & Hd)%bind_Ok). exists row. split; [|done].
    apply (for_each_elem_of _ _ _ _ Hrows). eauto.
Qed.

Lemma decisions_of_total df attr_names cls :
  valid_table df attr_names → (∀ i, i ∈ cls → i < length (data df)) →
  ∃ decs, decisions_of df cls = Ok decs.
Proof.
  intros Hv Hcls. unfold decisions_of, column_of.
  destruct (for_each_total (loc_row df) cls) as [rows Hrows].
  { intros i [row Hrow]%Hcls%lookup_lt_is_Some_2. unfold loc_row.
    rewrite Hrow. eauto. }
  rewrite Hrows. simpl.
  rewrite decide_True by by eapply valid_table_decision.
  destruct (for_each_total (λ row, row_get (columns df) row "Decision") rows)
    as [ds ->]; [|simpl; eauto].
  intros row (i & _ & Hrow)%(for_each_elem_of _ _ _ _ Hrows).
  unfold loc_row in Hrow. destruct (data df !! i) as [row'|] eqn:Hi; [|done].
  injection Hrow as ->.
  apply row_get_total; [by eapply valid_table_row|].
  by eapply valid_table_decision.
Qed.

Lemma certain_possible df d cls : certain df d cls → possible df d cls.
Proof.
  intros (decs & H & ->). exists {[ d ]}. split; [done|].
  by apply elem_of_singleton.
Qed.

(** ** The loop of [lower_upper] *)

Lemma lower_upper_loop_total df d eq lower upper :
  (∀ cls, cls ∈ eq → ∃ decs, decisions_of df cls = Ok decs) →
  ∃ l u, lower_upper_loop df d eq lower upper = Ok (l, u).
Proof.
  revert lower upper. induction eq as [|cls eq IH]; intros lower upper H; simpl.
  - eauto.
  - destruct (H cls) as [decs ->]; [left|]. simpl.
    repeat case_decide; apply IH; intros; apply H; by right.
Qed.

Lemma lower_upper_loop_Ok df d eq lower upper l u :
  lower_upper_loop df d eq lower upper = Ok (l, u) →
  (∀ x, x ∈ l ↔ x ∈ lower ∨ ∃ cls, cls ∈ eq ∧ x ∈ cls ∧ certain df d cls)
  ∧ (∀ x, x ∈ u ↔ x ∈ upper ∨ ∃ cls, cls ∈ eq ∧ x ∈ cls ∧ possible df d cls).
Proof.
  revert lower upper. induction eq as [|cls eq IH]; intros lower upper; simpl.
  - intros [= -> ->]. split; intros x; split; auto.
    + intros [?|(cls & []%elem_of_nil & _)]. done.
    + intros [?|(cls & []%elem_of_nil & _)]. done.
  - intros (decs & Hdecs & H)%bind_Ok.
    assert (∀ (Q : list nat → Prop) (x : nat) (acc : list nat) (b : Prop),
      (b ↔ x ∈ cls ∧ Q cls) →
      (x ∈ acc ∨ b) ∨ (∃ c, c ∈ eq ∧ x ∈ c ∧ Q c)
      ↔ x ∈ acc ∨ ∃ c, c ∈ cls :: eq ∧ x ∈ c ∧ Q c) as Hshift.
    { intros Q x acc b Hb. rewrite Hb. split.
      - intros [[?|[? ?]]|(c & ? & ?)]; [by left|right..].
        + exists cls. split; [left|done].
        + exists c. split; [by right|done].
      - intros [?|(c & [->|?]%elem_of_cons & ? & ?)]; [by left; left| |].
        + left; right; done.
        + right. by exists c. }
    assert (∀ (Q : list nat → Prop) (x : nat) (acc : list nat),
      ¬ Q cls →
      x ∈ acc ∨ (∃ c, c ∈ eq ∧ x ∈ c ∧ Q c)
      ↔ x ∈ acc ∨ ∃ c, c ∈ cls :: eq ∧ x ∈ c ∧ Q c) as Hskip.
    { intros Q x acc HQ. split.
      - intros [?|(c & ? & ?)]; [by left|right]. exists c. split; [by right|done].
      - intros [?|(c & [->|?]%elem_of_cons & ? & ?)]; [by left|done|right].
        by exists c. }
    assert (certain df d cls ↔ decs = {[ d ]}) as Hcert.
    { split; [intros (decs' & ? & ?); congruence | intros; by exists decs]. }
    assert (possible df d cls ↔ d ∈ decs) as Hposs.
    { split; [intros (decs' & ? & ?); congruence | intros; by exists decs]. }
    repeat case_decide; apply IH in H as [Hl Hu]; split; intros x.
    + rewrite Hl, elem_of_app. apply Hshift. rewrite Hcert. tauto.
    + rewrite Hu, elem_of_app. apply Hshift. rewrite Hposs. subst decs.
      rewrite elem_of_singleton. tauto.
    + rewrite Hl. apply Hskip. by rewrite Hcert.
    + rewrite Hu, elem_of_app. apply Hshift. rewrite Hposs. tauto.
    + rewrite Hl. apply Hskip. by rewrite Hcert.
    + rewrite Hu. apply Hskip. by rewrite Hposs.
Qed.

Lemma lower_upper_Ok df attrs d lower upper :
  lower_upper df attrs d = Ok (lower, upper) →
  ∃ eq, equivalence_classes df attrs = Ok eq
    ∧ (∀ x, x ∈ lower ↔ ∃ cls, cls ∈ eq ∧ x ∈ cls ∧ certain df d cls)
    ∧ (∀ x, x ∈ upper ↔ ∃ cls, cls ∈ eq ∧ x ∈ cls ∧ possible df d cls)
    ∧ StronglySorted lt lower ∧ StronglySorted lt upper.
Proof.
  unfold lower_upper. intros (eq & Heq & ([l u] & Hloop & [= <- <-])%bind_Ok)%bind_Ok.
  apply lower_upper_loop_Ok in Hloop as [Hl Hu].
  exists eq. split_and!; [done| | |apply sorted_increasing..].
  - intros x. rewrite elem_of_sorted, elem_of_list_to_set, Hl, elem_of_nil. tauto.
  - intros x. rewrite elem_of_sorted, elem_of_list_to_set, Hu, elem_of_nil. tauto.
Qed.

Lemma lower_upper_total df attr_names attrs d :
  valid_table df attr_names → attrs ⊆ columns df →
  ∃ lower upper, lower_upper df attrs d = Ok (lower, upper).
Proof.
  intros Hv Hsub.
  destruct (equivalence_classes_total df attr_names attrs Hv Hsub)
    as (keys & eq & Hk & Hlen & Heq & Hcp).
  destruct (lower_upper_loop_total df d eq [] []) as (l & u & Hloop).
  - intros cls Hcls. apply (decisions_of_total df attr_names); [done|].
    intros i Hi. rewrite <-Hlen. by eapply (cp_bound Hcp).
  - unfold lower_upper. rewrite Heq. simpl. rewrite Hloop. simpl. eauto.
Qed.

Lemma elem_of_boundary lower upper x :
  x ∈ boundary lower upper ↔ x ∈ upper ∧ x ∉ lower.
Proof.
  unfold boundary.
  by rewrite elem_of_sorted, elem_of_difference, !elem_of_list_to_set.
Qed.

(** ** C3: lower is inside upper, the boundary is outside lower *)

(** C3.  On a valid decision table, for every list of condition attributes
    and every decision value, [lower_upper] returns a lower approximation
    that is a subset of the upper approximation, and the boundary
    [sorted(set(upper) - set(lower))] shares no id with the lower
    approximation. *)
Theorem lower_subset_upper df attr_names attrs d :
  valid_table df attr_names → attrs ⊆ attr_names →
  ∃ lower upper, lower_upper df attrs d = Ok (lower, upper)
    ∧ lower ⊆ upper
    ∧ boundary lower upper ## lower.
Proof.
  intros Hv Hsub.
  destruct (lower_upper_total df attr_names attrs d Hv) as (lower & upper & Hlu);
    [by eapply valid_table_attrs|].
  exists lower, upper. split; [done|].
  apply lower_upper_Ok in Hlu as (eq & _ & Hl & Hu & _). split.
  - intros x (cls & ? & ? & ?%certain_possible)%Hl. apply Hu. eauto.
  - intros x [_ Hx]%elem_of_boundary. done.
Qed.

Lemma lower_subset_upper_witness :
  valid_table Samples.conflict2 ["A1"] ∧ ["A1"] ⊆ ["A1"] ∧
  ∃ lower upper, lower_upper Samples.conflict2 ["A1"] "P" = Ok (lower, upper)
    ∧ lower ⊆ upper
    ∧ boundary lower upper ## lower.
Proof.
  assert (valid_table Samples.conflict2 ["A1"]) as Hv
    by by_evaluation.
  assert (["A1"] ⊆ ["A1"]) as Hsub by done.
  split_and!; [done..|].
  exact (lower_subset_upper _ _ _ "P" Hv Hsub).
Defined.

(** ** C7: how each class is classified *)

(** C7.  On a valid decision table, [lower_upper] returns two strictly
    increasing lists of ids, and every equivalence class is treated by its
    decisions: when every member has the decision value the class is inside
    both lists; when some member has it and some member has not, the class
    is inside [upper] and shares no id with [lower]; when no member has it,
    the class shares no id with either list. *)
Theorem lower_upper_classifies df attr_names attrs d :
  valid_table df attr_names → attrs ⊆ attr_names →
  ∃ eq lower upper,
    equivalence_classes df attrs = Ok eq
    ∧ lower_upper df attrs d = Ok (lower, upper)
    ∧ StronglySorted lt lower ∧ StronglySorted lt upper
    ∧ ∀ cls, cls ∈ eq →
        ((∀ i, i ∈ cls → loc df i "Decision" = Ok d) →
           cls ⊆ lower ∧ cls ⊆ upper)
        ∧ ((∃ i, i ∈ cls ∧ loc df i "Decision" = Ok d) →
           (∃ j, j ∈ cls ∧ loc df j "Decision" ≠ Ok d) →
           cls ⊆ upper ∧ cls ## lower)
        ∧ ((∀ i, i ∈ cls → loc df i "Decision" ≠ Ok d) →
           cls ## lower ∧ cls ## upper).
Proof.
  intros Hv Hsub.
  pose proof (valid_table_attrs _ _ _ Hv Hsub) as Hcols.
  destruct (equivalence_classes_total df attr_names attrs Hv Hcols)
    as (keys & eq & Hk & Hlen & Heq & Hcp).
  destruct (lower_upper_total df attr_names attrs d Hv Hcols)
    as (lower & upper & Hlu).
  exists eq, lower, upper. split_and!; [done..| | |].
  1, 2: by apply lower_upper_Ok in Hlu as (? & _ & _ & _ & ? & ?).
  apply lower_upper_Ok in Hlu as (eq' & Heq' & Hl & Hu & _).
  assert (eq' = eq) as -> by congruence.
  intros cls Hcls.
  destruct (decisions_of_total df attr_names cls Hv) as [decs Hdecs].
  { intros i Hi. rewrite <-Hlen. by eapply (cp_bound Hcp). }
  pose proof (elem_of_decisions_of df cls decs) as Hin.
  assert (∀ x cls', x ∈ cls → cls' ∈ eq → x ∈ cls' → cls' = cls) as Huniq.
  { intros x cls' ? ? ?. by apply (cp_unique Hcp cls' cls x). }
  assert (certain df d cls ↔ decs = {[ d ]}) as Hcert.
  { split; [intros (decs' & ? & ?); congruence | intros; by exists decs]. }
  assert (possible df d cls ↔ d ∈ decs) as Hposs.
  { split; [intros (decs' & ? & ?); congruence | intros; by exists decs]. }
  assert (∀ x, x ∈ cls → x ∈ lower → decs = {[ d ]}) as Hlow.
  { intros x Hx (cls' & Hcls' & Hx' & Hc)%Hl.
    rewrite (Huniq x cls') in Hc by done. by apply Hcert. }
  assert (∀ x, x ∈ cls → x ∈ upper → d ∈ decs) as Hupp.
  { intros x Hx (cls' & Hcls' & Hx' & Hc)%Hu.
    rewrite (Huniq x cls') in Hc by done. by apply Hposs. }
  split_and!.
  - intros Hall.
    assert (decs = {[ d ]}) as Hd.
    { destruct (cp_class _ _ Hcp cls Hcls) as (Hne & _).
      apply set_eq. intros d'. rewrite elem_of_singleton, (Hin d') by done.
      split.
      - intros (i & Hi & Hloc). rewrite (Hall i Hi) in Hloc. congruence.
      - intros ->. destruct cls as [|i cls']; [done|].
        exists i. split; [left | apply Hall; left]. }
    split; intros x Hx.
    + apply Hl. exists cls. split_and!; [done..|]. by apply Hcert.
    + apply Hu. exists cls. split_and!; [done..|]. apply Hposs. rewrite Hd.
      by apply elem_of_singleton.
  - intros Hsome (j & Hj & Hnot). split.
    + intros x Hx. apply Hu. exists cls. split_and!; [done..|].
      apply Hposs. by apply Hin.
    + intros x Hx Hxl. specialize (Hlow x Hx Hxl).
      destruct (loc_total df attr_names j "Decision" Hv) as [d' Hd'].
      { rewrite <-Hlen. by eapply (cp_bound Hcp). }
      { by eapply valid_table_decision. }
      assert (d' ∈ decs) as Hd'in by (apply Hin; eauto).
      rewrite Hlow in Hd'in. apply elem_of_singleton in Hd'in. congruence.
  - intros Hnone.
    assert (d ∉ decs) as Hd.
    { rewrite Hin by done. intros (i & Hi & Hloc). by apply (Hnone i). }
    split; intros x Hx Hx'.
    + apply Hd. rewrite (Hlow x Hx Hx'). by apply elem_of_singleton.
    + apply Hd. by apply (Hupp x).
Qed.

Lemma lower_upper_classifies_witness :
  valid_table Samples.redundant4 ["A1"; "A2"] ∧ ["A1"] ⊆ ["A1"; "A2"] ∧
  ∃ eq lower upper,
    equivalence_classes Samples.redundant4 ["A1"] = Ok eq
    ∧ lower_upper Samples.redundant4 ["A1"] "P" = Ok (lower, upper)
    ∧ StronglySorted lt lower ∧ StronglySorted lt upper
    ∧ ∀ cls, cls ∈ eq →
        ((∀ i, i ∈ cls → loc Samples.redundant4 i "Decision" = Ok "P") →
           cls ⊆ lower ∧ cls ⊆ upper)
        ∧ ((∃ i, i ∈ cls ∧ loc Samples.redundant4 i "Decision" = Ok "P") →
           (∃ j, j ∈ cls ∧ loc Samples.redundant4 j "Decision" ≠ Ok "P") →
           cls ⊆ upper ∧ cls ## lower)
        ∧ ((∀ i, i ∈ cls → loc Samples.redundant4 i "Decision" ≠ Ok "P") →
           cls ## lower ∧ cls ## upper).
Proof.
  assert (valid_table Samples.redundant4 ["A1"; "A2"]) as Hv
    by by_evaluation.
  assert (["A1"] ⊆ ["A1"; "A2"]) as Hsub
    by by_evaluation.
  split_and!; [done..|].
  exact (lower_upper_classifies _ _ _ "P" Hv Hsub).
Defined.

(** ** C2: the accuracy ratio *)

Lemma increasing_NoDup (l : list nat) : StronglySorted lt l → NoDup l.
Proof.
  induction 1 as [|x l ? IH Hx]; constructor; [|done].
  rewrite Forall_forall in Hx. intros ?%Hx. lia.
Qed.

Lemma Zpos_of_nat n : n ≠ 0 → Z.pos (Pos.of_nat n) = Z.of_nat n.
Proof. intros Hn. by rewrite <-positive_nat_Z, Nat2Pos.id. Qed.

Lemma accuracy_empty lower : accuracy lower [] = 0%Q.
Proof. done. Qed.

Lemma accuracy_range lower upper :
  length lower ≤ length upper → (0 <= accuracy lower upper <= 1)%Q.
Proof.
  intros Hle. unfold accuracy. case_decide as Hu; [done|].
  unfold Qle. simpl. rewrite Zpos_of_nat by done. lia.
Qed.

Lemma accuracy_one lower upper :
  (accuracy lower upper == 1)%Q ↔ upper ≠ [] ∧ length lower = length upper.
Proof.
  unfold accuracy. case_decide as Hu.
  - apply length_zero_iff_nil in Hu as ->. split; [done | by intros [[] _]].
  - unfold Qeq. simpl. rewrite Zpos_of_nat by done. split.
    + intros H. split; [by intros ->|lia].
    + intros [_ H]. lia.
Qed.

Lemma boundary_empty lower upper :
  boundary lower upper = [] ↔ upper ⊆ lower.
Proof.
  split.
  - intros Hb x Hx. destruct (decide (x ∈ lower)) as [|Hn]; [done|].
    assert (x ∈ boundary lower upper) as Hin by by apply elem_of_boundary.
    rewrite Hb in Hin. by apply elem_of_nil in Hin.
  - intros Hsub. apply elem_of_nil_inv. intros x [? ?]%elem_of_boundary. auto.
Qed.

Lemma same_length_iff (lower upper : list nat) :
  NoDup lower → NoDup upper → lower ⊆ upper →
  length lower = length upper ↔ upper ⊆ lower.
Proof.
  intros Hl Hu Hlu. split.
  - intros Hlen x Hx.
    assert (lower ≡ₚ upper) as Hp; [|by rewrite Hp].
    apply submseteq_length_Permutation; [by apply NoDup_submseteq | lia].
  - intros Hul. apply Permutation_length, NoDup_Permutation; [done..|].
    intros x. split; auto.
Qed.

(** C2 (as the code has it).  On a valid decision table, for every list of
    condition attributes and every decision value, the accuracy
    [len(lower) / len(upper) if len(upper) else 0] lies between 0 and 1, is 0
    when [upper] is empty, and is 1 exactly when [upper] is not empty and the
    boundary is empty. *)
Theorem accuracy_bounds df attr_names attrs d :
  valid_table df attr_names → attrs ⊆ attr_names →
  ∃ lower upper, lower_upper df attrs d = Ok (lower, upper)
    ∧ (0 <= accuracy lower upper <= 1)%Q
    ∧ ((accuracy lower upper == 1)%Q ↔
         upper ≠ [] ∧ boundary lower upper = [])
    ∧ (upper = [] → (accuracy lower upper == 0)%Q).
Proof.
  intros Hv Hsub.
  destruct (lower_upper_total df attr_names attrs d Hv) as (lower & upper & Hlu);
    [by eapply valid_table_attrs|].
  exists lower, upper. split; [done|].
  apply lower_upper_Ok in Hlu as (eq & _ & Hl & Hu & Hsl%increasing_NoDup
    & Hsu%increasing_NoDup).
  assert (lower ⊆ upper) as Hlu.
  { intros x (cls & ? & ? & ?%certain_possible)%Hl. apply Hu. eauto. }
  split_and!.
  - apply accuracy_range, submseteq_length. by apply NoDup_submseteq.
  - apply accuracy_range, submseteq_length. by apply NoDup_submseteq.
  - by rewrite accuracy_one, boundary_empty, same_length_iff.
  - intros ->. by rewrite accuracy_empty.
Qed.

Lemma accuracy_bounds_witness :
  valid_table Samples.conflict2 ["A1"] ∧ ["A1"] ⊆ ["A1"] ∧
  ∃ lower upper, lower_upper Samples.conflict2 ["A1"] "N" = Ok (lower, upper)
    ∧ (0 <= accuracy lower upper <= 1)%Q
    ∧ ((accuracy lower upper == 1)%Q ↔
         upper ≠ [] ∧ boundary lower upper = [])
    ∧ (upper = [] → (accuracy lower upper == 0)%Q).
Proof.
  assert (valid_table Samples.conflict2 ["A1"]) as Hv
    by by_evaluation.
  assert (["A1"] ⊆ ["A1"]) as Hsub by done.
  split_and!; [done..|].
  exact (accuracy_bounds _ _ _ "N" Hv Hsub).
Defined.

(** The decision value ["Z"] occurs nowhere in the sample table: both
    approximations are empty, so the boundary is empty, and the accuracy is
    0, not 1. *)
Lemma accuracy_one_iff_boundary_empty_fails :
  valid_table Samples.consistent3 ["A1"; "A2"]
  ∧ lower_upper Samples.consistent3 ["A1"; "A2"] "Z" = Ok ([], [])
  ∧ boundary [] [] = []
  ∧ ¬ ((accuracy [] [] == 1)%Q ↔ boundary [] [] = []).
Proof.
  split_and!.
  - by_evaluation.
  - vm_compute. reflexivity.
  - vm_compute. reflexivity.
  - intros [_ H]. assert (boundary [] [] = []) as Hb by (vm_compute; reflexivity).
    apply H in Hb. vm_compute in Hb. discriminate.
Qed.

(** ** C10: no conflict exactly when every concept is exact *)

Lemma column_total df attr_names a :
  valid_table df attr_names → a ∈ columns df → ∃ vs, column df a = Ok vs.
Proof.
  intros Hv Ha. unfold column, column_of. rewrite decide_True by done.
  apply for_each_total. intros row (i & Hi)%list_elem_of_lookup.
  apply row_get_total; [by eapply valid_table_row | done].
Qed.

Lemma elem_of_column df a vs v :
  column df a = Ok vs → v ∈ vs ↔ ∃ i, loc df i a = Ok v.
Proof.
  unfold column, column_of. case_decide; [|done]. intros Hvs.
  rewrite (for_each_elem_of _ _ _ _ Hvs). unfold loc, loc_row. split.
  - intros (row & (i & Hi)%list_elem_of_lookup & Hrow). exists i. by rewrite Hi.
  - intros (i & Hi). destruct (data df !! i) as [row|] eqn:Hrow; [|done].
    exists row. split; [by eapply list_elem_of_lookup_2 | done].
Qed.

Lemma inconsistent_loop_total df eq conflicts :
  (∀ cls, cls ∈ eq → ∃ decs, decisions_of df cls = Ok decs) →
  ∃ c, inconsistent_loop df eq conflicts = Ok c.
Proof.
  revert conflicts. induction eq as [|cls eq IH]; intros conflicts H; simpl.
  - eauto.
  - destruct (H cls) as [decs ->]; [left|]. simpl.
    case_decide; apply IH; intros; apply H; by right.
Qed.

Lemma inconsistent_loop_nil df eq conflicts c :
  inconsistent_loop df eq conflicts = Ok c →
  c = [] ↔
  conflicts = []
  ∧ ∀ cls decs, cls ∈ eq → decisions_of df cls = Ok decs → size decs ≤ 1.
Proof.
  revert conflicts. induction eq as [|cls eq IH]; intros conflicts; simpl.
  - intros [= ->]. split; [|by intros [? _]].
    intros ->. split; [done|]. intros cls decs []%elem_of_nil.
  - intros (decs & Hdecs & H)%bind_Ok. case_decide as Hsz.
    + apply IH in H. rewrite H. split.
      * intros [[]%app_eq_nil _]. done.
      * intros [_ Hall].
        assert (size decs ≤ 1) by (apply (Hall cls); [left | done]). lia.
    + apply IH in H. rewrite H. split.
      * intros [-> Hall]. split; [done|].
        intros cls' decs' [->|?]%elem_of_cons Hd'; [|by eapply Hall].
        assert (decs' = decs) as -> by congruence. lia.
      * intros [-> Hall]. split; [done|]. intros cls' decs' ? ?.
        apply (Hall cls'); [by right | done].
Qed.

(** C10.  On a valid decision table, [inconsistent_objects] returns the empty
    list exactly when, for every decision value that occurs in the table,
    [lower_upper] returns equal lower and upper approximations (all under
    the same list of condition attributes). *)
Theorem consistent_iff_exact df attr_names attrs :
  valid_table df attr_names → attrs ⊆ attr_names →
  ∃ conflicts ds,
    inconsistent_objects df attrs = Ok conflicts
    ∧ column df "Decision" = Ok ds
    ∧ (conflicts = [] ↔
       ∀ d, d ∈ ds →
         ∃ lower upper, lower_upper df attrs d = Ok (lower, upper)
           ∧ lower = upper).
Proof.
  intros Hv Hsub.
  pose proof (valid_table_attrs _ _ _ Hv Hsub) as Hcols.
  destruct (equivalence_classes_total df attr_names attrs Hv Hcols)
    as (keys & eq & Hk & Hlen & Heq & Hcp).
  assert (∀ cls, cls ∈ eq → ∃ decs, decisions_of df cls = Ok decs) as Hdecs.
  { intros cls Hcls. apply (decisions_of_total df attr_names); [done|].
    intros i Hi. rewrite <-Hlen. by eapply (cp_bound Hcp). }
  destruct (inconsistent_loop_total df eq [] Hdecs) as [conflicts Hloop].
  destruct (column_total df attr_names "Decision" Hv) as [ds Hds];
    [by eapply valid_table_decision|].
  exists conflicts, ds. split_and!; [|done|].
  { unfold inconsistent_objects. by rewrite Heq. }
  rewrite (inconsistent_loop_nil _ _ _ _ Hloop). split.
  - intros [_ Hall] d Hd.
    destruct (lower_upper_total df attr_names attrs d Hv Hcols)
      as (lower & upper & Hlu).
    exists lower, upper. split; [done|].
    apply lower_upper_Ok in Hlu as (eq' & Heq' & Hl & Hu & Hsl & Hsu).
    assert (eq' = eq) as -> by congruence.
    apply sorted_ext; [done..|]. intros x. rewrite Hl, Hu.
    split; intros (cls & Hcls & Hx & Hc); exists cls; (split_and!; [done..|]).
    + by apply certain_possible.
    + destruct Hc as (decs & Hdc & Hin). exists decs. split; [done|].
      specialize (Hall cls decs Hcls Hdc).
      apply set_eq. intros d'. rewrite elem_of_singleton. split; [|by intros ->].
      intros Hd'. apply (size_singleton_inv decs); [|done..].
      assert (size decs ≠ 0); [|lia].
      apply size_non_empty_iff. intros He. rewrite He in Hin.
      by apply elem_of_empty in Hin.
  - intros Hexact. split; [done|]. intros cls decs Hcls Hdc.
    destruct (decide (size decs ≤ 1)) as [|Hsz]; [done|]. exfalso.
    destruct (size_pos_elem_of decs) as [d Hd]; [lia|].
    pose proof Hd as Hd'.
    apply (elem_of_decisions_of _ _ _ _ Hdc) in Hd' as (i & Hi & Hloc).
    destruct (Hexact d) as (lower & upper & Hlu & <-).
    { apply (elem_of_column _ _ _ _ Hds). eauto. }
    apply lower_upper_Ok in Hlu as (eq' & Heq' & Hl & Hu & _).
    assert (eq' = eq) as -> by congruence.
    assert (i ∈ lower) as (cls' & Hcls' & Hi' & decs' & Hdc' & Hsingle)%Hl.
    { apply Hu. exists cls. split_and!; [done..|]. by exists decs. }
    assert (cls' = cls) as -> by by apply (cp_unique Hcp cls' cls i).
    assert (decs' = decs) as -> by congruence.
    apply Hsz. rewrite Hsingle, size_singleton. done.
Qed.

Lemma consistent_iff_exact_witness :
  valid_table Samples.conflict2 ["A1"] ∧ ["A1"] ⊆ ["A1"] ∧
  ∃ conflicts ds,
    inconsistent_objects Samples.conflict2 ["A1"] = Ok conflicts
    ∧ column Samples.conflict2 "Decision" = Ok ds
    ∧ (conflicts = [] ↔
       ∀ d, d ∈ ds →
         ∃ lower upper, lower_upper Samples.conflict2 ["A1"] d = Ok (lower, upper)
           ∧ lower = upper).
Proof.
  assert (valid_table Samples.conflict2 ["A1"]) as Hv
    by by_evaluation.
  assert (["A1"] ⊆ ["A1"]) as Hsub by done.
  split_and!; [done..|].
  exact (consistent_iff_exact _ _ _ Hv Hsub).
Defined.

(** ** C9: unknown column labels *)

Lemma first_unknown (cols attributes : list string) :
  ¬ (attributes ⊆ cols) →
  ∃ l1 a l2, attributes = l1 ++ a :: l2 ∧ l1 ⊆ cols ∧ a ∉ cols.
Proof.
  induction attributes as [|a attributes IH]; intros Hn.
  - destruct Hn. intros x []%elem_of_nil.
  - destruct (decide (a ∈ cols)) as [Ha|Ha].
    + destruct IH as (l1 & b & l2 & -> & Hl1 & Hb).
      { intros Hsub. apply Hn. intros x [->|?]%elem_of_cons; auto. }
      exists (a :: l1), b, l2. split_and!; [done| |done].
      intros x [->|?]%elem_of_cons; auto.
    + exists [], a, attributes. split_and!; [done| |done].
      intros x []%elem_of_nil.
Qed.

(** C9 (as the code has it).  On a valid decision table,
    [equivalence_classes] raises no exception when every requested name is
    a column label of the frame, the label ["Decision"] included; when the
    table has a row and some requested name is no column label, it raises
    pandas' [KeyError] for the first such name. *)
Theorem equivalence_classes_key_error df attr_names attributes :
  valid_table df attr_names →
  (attributes ⊆ attr_names ++ ["Decision"] →
     ∃ P, equivalence_classes df attributes = Ok P)
  ∧ (data df ≠ [] → ¬ (attributes ⊆ attr_names ++ ["Decision"]) →
     ∃ l1 a l2, attributes = l1 ++ a :: l2
       ∧ l1 ⊆ attr_names ++ ["Decision"]
       ∧ (a ∉ attr_names ++ ["Decision"])
       ∧ equivalence_classes df attributes = Raise (KeyError (Column a))).
Proof.
  intros Hv. pose proof Hv as (Hcols & _). rewrite <-Hcols. split.
  - intros Hsub.
    destruct (equivalence_classes_total df attr_names attributes Hv Hsub)
      as (keys & P & _ & _ & HP & _). eauto.
  - intros Hrows (l1 & a & l2 & -> & Hl1 & Ha)%first_unknown.
    exists l1, a, l2. split_and!; [done..|].
    rewrite equivalence_classes_unfold. unfold row_keys.
    destruct (data df) as [|row rows] eqn:Hdata; [done|].
    assert (row_key (columns df) (l1 ++ a :: l2) row = Raise (KeyError (Column a))) as Hr.
    { apply for_each_raise; [|by apply row_get_missing].
      intros x Hx. apply row_get_total; [|by apply Hl1].
      apply (valid_table_row df attr_names 0); [done | by rewrite Hdata]. }
    cbn [for_each]. by rewrite Hr.
Qed.

Lemma equivalence_classes_key_error_witness :
  valid_table Samples.consistent3 ["A1"; "A2"] ∧
  (["A2"; "A3"] ⊆ ["A1"; "A2"] ++ ["Decision"] →
     ∃ P, equivalence_classes Samples.consistent3 ["A2"; "A3"] = Ok P)
  ∧ (data Samples.consistent3 ≠ [] →
     ¬ (["A2"; "A3"] ⊆ ["A1"; "A2"] ++ ["Decision"]) →
     ∃ l1 a l2, ["A2"; "A3"] = l1 ++ a :: l2
       ∧ l1 ⊆ ["A1"; "A2"] ++ ["Decision"]
       ∧ (a ∉ ["A1"; "A2"] ++ ["Decision"])
       ∧ equivalence_classes Samples.consistent3 ["A2"; "A3"]
         = Raise (KeyError (Column a))).
Proof.
  assert (valid_table Samples.consistent3 ["A1"; "A2"]) as Hv
    by by_evaluation.
  split; [done|].
  exact (equivalence_classes_key_error _ _ ["A2"; "A3"] Hv).
Defined.

(** ["Decision"] is not a condition attribute of the sample table, yet
    partitioning by it raises nothing. *)
Lemma decision_label_is_accepted :
  valid_table Samples.consistent3 ["A1"; "A2"]
  ∧ "Decision" ∈ ["Decision"]
  ∧ ("Decision" ∉ ["A1"; "A2"])
  ∧ equivalence_classes Samples.consistent3 ["Decision"] = Ok [[0; 1]; [2]].
Proof.
  split_and!.
  - by_evaluation.
  - left.
  - by_evaluation.
  - vm_compute. reflexivity.
Qed.

(** ** [itertools.combinations] *)

Lemma elem_of_combinations {A} (l : list A) r c :
  c ∈ combinations l r ↔ c `sublist_of` l ∧ length c = r.
Proof.
  revert r c. induction l as [|x l IH]; intros [|r] c; simpl.
  - rewrite list_elem_of_singleton, sublist_nil_r.
    split; [by intros -> | by intros [-> _]].
  - rewrite elem_of_nil, sublist_nil_r. split; [done | by intros [-> ?]].
  - rewrite list_elem_of_singleton. split.
    + intros ->. split; [apply sublist_nil_l | done].
    + intros [_ ?]. by apply length_zero_iff_nil.
  - rewrite elem_of_app, list_elem_of_fmap, sublist_cons_r, IH. split.
    + intros [(c' & -> & [? ?]%IH)|[? ?]].
      * split; [right; eauto | simpl; lia].
      * split; [by left | done].
    + intros [[?|(c' & -> & ?)] Hlen].
      * by right.
      * left. exists c'. split; [done|]. apply IH. simpl in Hlen.
        split; [done | lia].
Qed.

Lemma elem_of_candidates attrs c :
  c ∈ candidates attrs ↔ c ≠ [] ∧ c `sublist_of` attrs.
Proof.
  unfold candidates. rewrite list_elem_of_bind. split.
  - intros (r & [Hs Hlen]%elem_of_combinations & Hr%elem_of_seq).
    split; [|done]. intros ->. simpl in Hlen. lia.
  - intros [Hne Hs]. exists (length c). split.
    + by apply elem_of_combinations.
    + apply elem_of_seq. pose proof (sublist_length _ _ Hs).
      destruct c; [done | simpl in *; lia].
Qed.

Lemma candidates_full attrs : attrs ≠ [] → attrs ∈ candidates attrs.
Proof. intros ?. by apply elem_of_candidates. Qed.

(** ** The loop of [reducts] *)

Lemma reducts_loop_Ok df full combos red :
  (∀ c, c ∈ combos → ∃ P, equivalence_classes df c = Ok P) →
  reducts_loop df full combos red
  = Ok (red ++ filter (λ c, equivalence_classes df c = Ok full) combos).
Proof.
  revert red. induction combos as [|c combos IH]; intros red H; simpl.
  - by rewrite app_nil_r.
  - destruct (H c) as [P HP]; [left|]. rewrite HP. simpl.
    rewrite filter_cons, HP.
    assert (∀ c', c' ∈ combos → ∃ P, equivalence_classes df c' = Ok P)
      by (intros; apply H; by right).
    destruct (decide (P = full)) as [->|Hne].
    + rewrite decide_True by done. rewrite IH by done.
      by rewrite <-(assoc_L (++)).
    + rewrite decide_False by congruence. by apply IH.
Qed.

Lemma reducts_Ok df attr_names :
  valid_table df attr_names →
  ∃ keys F, row_keys df attr_names = Ok keys
    ∧ equivalence_classes df attr_names = Ok F
    ∧ class_partition keys F
    ∧ reducts df attr_names
      = Ok (filter (λ c, equivalence_classes df c = Ok F)
              (candidates attr_names)).
Proof.
  intros Hv.
  destruct (equivalence_classes_total df attr_names attr_names Hv)
    as (keys & F & Hk & _ & HF & Hcp); [by eapply valid_table_attrs|].
  exists keys, F. split_and!; [done..|].
  unfold reducts. rewrite HF. simpl. rewrite reducts_loop_Ok; [done|].
  intros c [_ Hc%sublist_subseteq]%elem_of_candidates.
  destruct (equivalence_classes_total df attr_names c Hv)
    as (? & P & _ & _ & HP & _); [by eapply valid_table_attrs | eauto].
Qed.

(** ** Comparing partitions as lists and as sets of sets *)

Lemma elem_of_partition_set (p : list (list nat)) (s : gset nat) :
  s ∈ partition_set p ↔ ∃ g, g ∈ p ∧ s = list_to_set g.
Proof.
  unfold partition_set. rewrite elem_of_list_to_set, list_elem_of_fmap.
  split; intros (g & ? & ?); eauto.
Qed.

(** Two lists of groups, each ordered by first ids and each group
    increasing, that hold the same sets of ids are the same list. *)
Lemma partition_set_inj keys1 keys2 p1 p2 :
  class_partition keys1 p1 → class_partition keys2 p2 →
  partition_set p1 = partition_set p2 → p1 = p2.
Proof.
  intros H1 H2 Heq.
  assert (∀ ka kb pa pb, class_partition ka pa → class_partition kb pb →
    partition_set pa = partition_set pb → ∀ g, g ∈ pa → g ∈ pb) as Hincl.
  { intros ka kb pa pb Ha Hb Hab g Hg.
    assert (list_to_set g ∈ partition_set pb) as (h & Hh & Hgh)%elem_of_partition_set.
    { rewrite <-Hab. apply elem_of_partition_set. eauto. }
    assert (g = h) as ->; [|done].
    destruct (cp_class _ _ Ha g Hg) as (_ & ? & _).
    destruct (cp_class _ _ Hb h Hh) as (_ & ? & _).
    apply sorted_ext; [done..|]. intros i.
    by rewrite <-(elem_of_list_to_set (C:=gset nat) i g), Hgh, elem_of_list_to_set. }
  apply (StronglySorted_unique hd_lt); [by destruct H1 | by destruct H2 |].
  apply NoDup_Permutation; [by eapply cp_NoDup..|].
  intros g. split; eapply Hincl; eauto.
Qed.

(** The test [equivalence_classes(df, combo) == full] of [reducts]. *)
Lemma list_eq_decides_set_eq df c attrs P F :
  equivalence_classes df c = Ok P → equivalence_classes df attrs = Ok F →
  P = F ↔ partition_set P = partition_set F.
Proof.
  intros HP HF. split; [by intros ->|].
  apply equivalence_classes_Ok in HP as (keys & _ & ->).
  apply equivalence_classes_Ok in HF as (keys' & _ & ->).
  apply (partition_set_inj keys keys'); apply classes_partition.
Qed.

(** ** C1: what [reducts] collects *)

(** C1.  On a valid decision table, [reducts] returns without exception, and
    the list it returns holds exactly the non-empty subsequences of the
    condition attributes whose partition, read as a set of sets of object
    ids, equals the partition of the full attribute list; nothing is
    filtered for minimality.  The comparison [==] of the two lists of groups
    that the code performs holds exactly when the two sets of sets are
    equal. *)
Theorem reducts_collects_set_equal df attr_names :
  valid_table df attr_names →
  ∃ red F,
    reducts df attr_names = Ok red
    ∧ equivalence_classes df attr_names = Ok F
    ∧ (∀ c, c ∈ red ↔
         c ≠ [] ∧ c `sublist_of` attr_names
         ∧ ∃ P, equivalence_classes df c = Ok P
             ∧ partition_set P = partition_set F)
    ∧ (∀ c P, c ≠ [] → c `sublist_of` attr_names →
         equivalence_classes df c = Ok P →
         (P = F ↔ partition_set P = partition_set F)).
Proof.
  intros Hv. destruct (reducts_Ok df attr_names Hv) as (keys & F & Hk & HF & Hcp & Hred).
  eexists _, F. split_and!; [done..| |].
  - intros c. rewrite list_elem_of_filter, elem_of_candidates. split.
    + intros (HP & Hne & Hs). split_and!; [done..|]. by exists F.
    + intros (Hne & Hs & P & HP & Heq). split_and!; [|done..].
      by apply (list_eq_decides_set_eq df c attr_names P F HP HF) in Heq as ->.
  - intros c P _ _ HP. by eapply list_eq_decides_set_eq.
Qed.

Lemma reducts_collects_set_equal_witness :
  valid_table Samples.redundant4 ["A1"; "A2"] ∧
  ∃ red F,
    reducts Samples.redundant4 ["A1"; "A2"] = Ok red
    ∧ equivalence_classes Samples.redundant4 ["A1"; "A2"] = Ok F
    ∧ (∀ c, c ∈ red ↔
         c ≠ [] ∧ c `sublist_of` ["A1"; "A2"]
         ∧ ∃ P, equivalence_classes Samples.redundant4 c = Ok P
             ∧ partition_set P = partition_set F)
    ∧ (∀ c P, c ≠ [] → c `sublist_of` ["A1"; "A2"] →
         equivalence_classes Samples.redundant4 c = Ok P →
         (P = F ↔ partition_set P = partition_set F)).
Proof.
  assert (valid_table Samples.redundant4 ["A1"; "A2"]) as Hv
    by by_evaluation.
  split; [done|].
  exact (reducts_collects_set_equal _ _ Hv).
Defined.

(** ** C5: the full attribute list is always collected *)

(** C5.  On a valid decision table with at least one condition attribute,
    the list returned by [reducts] contains the full list of condition
    attributes, so it is not empty, and every list it contains induces a
    partition that is set-equal to the partition of the full list. *)
Theorem reducts_contains_full df attr_names :
  valid_table df attr_names → attr_names ≠ [] →
  ∃ red F,
    reducts df attr_names = Ok red
    ∧ equivalence_classes df attr_names = Ok F
    ∧ attr_names ∈ red
    ∧ red ≠ []
    ∧ ∀ c, c ∈ red →
        ∃ P, equivalence_classes df c = Ok P
          ∧ partition_set P = partition_set F.
Proof.
  intros Hv Hne.
  destruct (reducts_Ok df attr_names Hv) as (keys & F & Hk & HF & Hcp & Hred).
  assert (attr_names ∈ filter (λ c, equivalence_classes df c = Ok F)
            (candidates attr_names)) as Hfull.
  { apply list_elem_of_filter. split; [done | by apply candidates_full]. }
  eexists _, F. split_and!; [done..| |].
  - intros Hnil. rewrite Hnil in Hfull. by apply elem_of_nil in Hfull.
  - intros c [HP _]%list_elem_of_filter. by exists F.
Qed.

Lemma reducts_contains_full_witness :
  valid_table Samples.consistent3 ["A1"; "A2"] ∧ ["A1"; "A2"] ≠ [] ∧
  ∃ red F,
    reducts Samples.consistent3 ["A1"; "A2"] = Ok red
    ∧ equivalence_classes Samples.consistent3 ["A1"; "A2"] = Ok F
    ∧ ["A1"; "A2"] ∈ red
    ∧ red ≠ []
    ∧ ∀ c, c ∈ red →
        ∃ P, equivalence_classes Samples.consistent3 c = Ok P
          ∧ partition_set P = partition_set F.
Proof.
  assert (valid_table Samples.consistent3 ["A1"; "A2"]) as Hv
    by by_evaluation.
  assert (["A1"; "A2"] ≠ []) as Hne by done.
  split_and!; [done..|].
  exact (reducts_contains_full _ _ Hv Hne).
Defined.

(** ** The order on rule texts *)

Lemma string_compare_trans s1 s2 s3 :
  String.compare s1 s2 ≠ Gt → String.compare s2 s3 ≠ Gt →
  String.compare s1 s3 ≠ Gt.
Proof.
  revert s2 s3. induction s1 as [|c1 s1 IH]; intros [|c2 s2] [|c3 s3];
    simpl; try done.
  unfold Ascii.compare.
  destruct (N.compare_spec (Ascii.N_of_ascii c1) (Ascii.N_of_ascii c2));
    destruct (N.compare_spec (Ascii.N_of_ascii c2) (Ascii.N_of_ascii c3));
    destruct (N.compare_spec (Ascii.N_of_ascii c1) (Ascii.N_of_ascii c3));
    try done; try lia.
  apply IH.
Qed.

Global Instance str_le_total : Total str_le.
Proof. intros s1 s2. apply String.leb_total. Qed.

Global Instance str_le_trans : Transitive str_le.
Proof.
  intros s1 s2 s3. unfold str_le, String.leb.
  pose proof (string_compare_trans s1 s2 s3) as H.
  destruct (String.compare s1 s2), (String.compare s2 s3),
    (String.compare s1 s3); try done; intros; exfalso; by apply H.
Qed.

Global Instance str_le_antisymm : AntiSymm (=) str_le.
Proof. intros s1 s2. apply String.leb_antisym. Qed.

Lemma elem_of_sorted_str s x : x ∈ sorted_str s ↔ x ∈ s.
Proof.
  unfold sorted_str. by rewrite merge_sort_Permutation, elem_of_elements.
Qed.

Lemma NoDup_sorted_str s : NoDup (sorted_str s).
Proof.
  unfold sorted_str. rewrite merge_sort_Permutation. apply NoDup_elements.
Qed.

Lemma sorted_str_sorted s : StronglySorted str_le (sorted_str s).
Proof. apply (StronglySorted_merge_sort _). Qed.

Lemma elem_of_unique l x : x ∈ unique l ↔ x ∈ l.
Proof.
  induction l as [|y l IH]; simpl; [done|].
  rewrite !elem_of_cons, list_elem_of_filter, IH.
  destruct (decide (x = y)); tauto.
Qed.

Lemma NoDup_unique l : NoDup (unique l).
Proof.
  induction l as [|y l IH]; simpl; constructor.
  - rewrite list_elem_of_filter. by intros [? _].
  - by apply NoDup_filter.
Qed.

(** ** The loop of [extract_rules] *)

Lemma rule_of_total df attr_names attrs d idx :
  valid_table df attr_names → attrs ⊆ columns df → idx < length (data df) →
  ∃ r, rule_of df attrs d idx = Ok r.
Proof.
  intros Hv Hsub Hidx. unfold rule_of.
  destruct (for_each_total (λ a, v ← loc df idx a; Ok (a +:+ "=" +:+ v)) attrs)
    as [cond ->]; [|simpl; eauto].
  intros a Ha. destruct (loc_total df attr_names idx a Hv Hidx) as [v ->];
    [by apply Hsub | simpl; eauto].
Qed.

Lemma extract_rules_loop_total df attrs decisions rules :
  (∀ d, d ∈ decisions →
     ∃ lower upper, lower_upper df attrs d = Ok (lower, upper)
       ∧ ∀ idx, idx ∈ lower → ∃ r, rule_of df attrs d idx = Ok r) →
  ∃ rules', extract_rules_loop df attrs decisions rules = Ok rules'.
Proof.
  revert rules. induction decisions as [|d ds IH]; intros rules H; simpl.
  - eauto.
  - destruct (H d) as (lower & upper & -> & Hrules); [left|]. simpl.
    destruct (for_each_total (rule_of df attrs d) lower Hrules) as [new ->].
    simpl. apply IH. intros; apply H; by right.
Qed.

Lemma extract_rules_loop_Ok df attrs decisions rules rules' :
  extract_rules_loop df attrs decisions rules = Ok rules' →
  ∀ r, r ∈ rules' ↔
    r ∈ rules
    ∨ ∃ d lower upper idx,
        d ∈ decisions ∧ lower_upper df attrs d = Ok (lower, upper)
        ∧ idx ∈ lower ∧ rule_of df attrs d idx = Ok r.
Proof.
  revert rules. induction decisions as [|d ds IH]; intros rules; simpl.
  - intros [= ->] r. split; [auto|].
    intros [?|(d & ? & ? & ? & []%elem_of_nil & _)]. done.
  - intros ([lower upper] & Hlu & (new & Hnew & H)%bind_Ok)%bind_Ok r.
    rewrite (IH _ H), elem_of_app, (for_each_elem_of _ _ _ _ Hnew). split.
    + intros [[?|(idx & ? & ?)]|(d' & l' & u' & idx & ? & ? & ? & ?)].
      * by left.
      * right. exists d, lower, upper, idx. split_and!; [left|done..].
      * right. exists d', l', u', idx. split_and!; [by right|done..].
    + intros [?|(d' & l' & u' & idx & [->|?]%elem_of_cons & Hlu' & ? & ?)].
      * by left; left.
      * left; right. exists idx. split; [|done]. congruence.
      * right. exists d', l', u', idx. done.
Qed.

(** ** C8: the rule list *)

(** C8.  On a valid decision table, [extract_rules] returns without
    exception a list of rule texts that has no repeated text, is sorted in
    lexicographic order, and holds exactly the texts built from the objects
    of the lower approximations of the decision values of the table; it is
    the empty list when all those lower approximations are empty. *)
Theorem extract_rules_sorted_unique df attr_names attrs :
  valid_table df attr_names → attrs ⊆ attr_names →
  ∃ rules ds,
    extract_rules df attrs = Ok rules
    ∧ column df "Decision" = Ok ds
    ∧ NoDup rules
    ∧ StronglySorted str_le rules
    ∧ (∀ r, r ∈ rules ↔
         ∃ d lower upper idx,
           d ∈ ds ∧ lower_upper df attrs d = Ok (lower, upper)
           ∧ idx ∈ lower ∧ rule_of df attrs d idx = Ok r)
    ∧ ((∀ d lower upper, d ∈ ds →
          lower_upper df attrs d = Ok (lower, upper) → lower = []) →
       rules = []).
Proof.
  intros Hv Hsub.
  pose proof (valid_table_attrs _ _ _ Hv Hsub) as Hcols.
  destruct (column_total df attr_names "Decision" Hv) as [ds Hds];
    [by eapply valid_table_decision|].
  destruct (extract_rules_loop_total df attrs (unique ds) []) as [raw Hraw].
  { intros d _.
    destruct (lower_upper_total df attr_names attrs d Hv Hcols)
      as (lower & upper & Hlu).
    exists lower, upper. split; [done|]. intros idx Hidx.
    apply (rule_of_total df attr_names); [done..|].
    apply lower_upper_Ok in Hlu as (eq & Heq & Hl & _).
    apply Hl in Hidx as (cls & Hcls & Hidx & _).
    destruct (equivalence_classes_total df attr_names attrs Hv Hcols)
      as (keys & eq' & _ & Hlen & Heq' & Hcp).
    assert (eq' = eq) as -> by congruence.
    rewrite <-Hlen. by eapply (cp_bound Hcp). }
  assert (∀ r, r ∈ sorted_str (list_to_set raw) ↔
    ∃ d lower upper idx,
      d ∈ ds ∧ lower_upper df attrs d = Ok (lower, upper)
      ∧ idx ∈ lower ∧ rule_of df attrs d idx = Ok r) as Hrules.
  { intros r.
    rewrite elem_of_sorted_str, elem_of_list_to_set,
      (extract_rules_loop_Ok _ _ _ _ _ Hraw), elem_of_nil.
    split.
    - intros [[]|(d & l & u & idx & Hd & ?)].
      exists d, l, u, idx. split; [by apply elem_of_unique | done].
    - intros (d & l & u & idx & Hd & ?). right.
      exists d, l, u, idx. split; [by apply elem_of_unique | done]. }
  exists (sorted_str (list_to_set raw)), ds. split_and!.
  - unfold extract_rules. rewrite Hds. simpl. by rewrite Hraw.
  - done.
  - apply NoDup_sorted_str.
  - apply sorted_str_sorted.
  - done.
  - intros Hempty. apply elem_of_nil_inv. intros r.
    rewrite Hrules. intros (d & lower & upper & idx & Hd & Hlu & Hidx & _).
    rewrite (Hempty d lower upper Hd Hlu) in Hidx. by apply elem_of_nil in Hidx.
Qed.

Lemma extract_rules_sorted_unique_witness :
  valid_table Samples.redundant4 ["A1"; "A2"] ∧ ["A1"; "A2"] ⊆ ["A1"; "A2"] ∧
  ∃ rules ds,
    extract_rules Samples.redundant4 ["A1"; "A2"] = Ok rules
    ∧ column Samples.redundant4 "Decision" = Ok ds
    ∧ NoDup rules
    ∧ StronglySorted str_le rules
    ∧ (∀ r, r ∈ rules ↔
         ∃ d lower upper idx,
           d ∈ ds
           ∧ lower_upper Samples.redundant4 ["A1"; "A2"] d = Ok (lower, upper)
           ∧ idx ∈ lower
           ∧ rule_of Samples.redundant4 ["A1"; "A2"] d idx = Ok r)
    ∧ ((∀ d lower upper, d ∈ ds →
          lower_upper Samples.redundant4 ["A1"; "A2"] d = Ok (lower, upper) →
          lower = []) →
       rules = []).
Proof.
  assert (valid_table Samples.redundant4 ["A1"; "A2"]) as Hv
    by by_evaluation.
  assert (["A1"; "A2"] ⊆ ["A1"; "A2"]) as Hsub by done.
  split_and!; [done..|].
  exact (extract_rules_sorted_unique _ _ _ Hv Hsub).
Defined.

(** ** The examples of the specification, run on the model *)

Example consistent3_classes :
  equivalence_classes Samples.consistent3 ["A1"; "A2"] = Ok [[0; 1]; [2]].
Proof. vm_compute. reflexivity. Qed.

Example consistent3_P :
  lower_upper Samples.consistent3 ["A1"; "A2"] "P" = Ok ([0; 1], [0; 1]).
Proof. vm_compute. reflexivity. Qed.

Example consistent3_N :
  lower_upper Samples.consistent3 ["A1"; "A2"] "N" = Ok ([2], [2]).
Proof. vm_compute. reflexivity. Qed.

Example consistent3_no_conflict :
  inconsistent_objects Samples.consistent3 ["A1"; "A2"] = Ok [].
Proof. vm_compute. reflexivity. Qed.

Example conflict2_P :
  lower_upper Samples.conflict2 ["A1"] "P" = Ok ([], [0; 1])
  ∧ accuracy [] [0; 1] = (0 # 2)%Q.
Proof. split; vm_compute; reflexivity. Qed.

Example conflict2_no_rule : extract_rules Samples.conflict2 ["A1"] = Ok [].
Proof. vm_compute. reflexivity. Qed.

Example conflict2_one_conflict :
  ∃ values, inconsistent_objects Samples.conflict2 ["A1"] = Ok [([0; 1], values)]
    ∧ values ≡ₚ ["P"; "N"].
Proof.
  eexists. split; [vm_compute; reflexivity|]. apply Permutation_swap.
Qed.

Example redundant4_reducts :
  reducts Samples.redundant4 ["A1"; "A2"] = Ok [["A2"]; ["A1"; "A2"]].
Proof. vm_compute. reflexivity. Qed.

Example redundant4_rules :
  extract_rules Samples.redundant4 ["A1"; "A2"]
  = Ok ["IF A1=a AND A2=u THEN Decision = P";
        "IF A1=a AND A2=v THEN Decision = N";
        "IF A1=b AND A2=w THEN Decision = P"].
Proof. vm_compute. reflexivity. Qed.

(** * Further properties of the analysis *)

(** ** Indiscernibility *)

Lemma loc_row_get df i row a :
  data df !! i = Some row → loc df i a = row_get (columns df) row a.
Proof. intros Hi. unfold loc, loc_row. by rewrite Hi. Qed.

(** Two rows carry the same key exactly when they agree on every attribute
    of the key. *)
Lemma row_key_eq_iff cols attributes row1 row2 k1 k2 :
  row_key cols attributes row1 = Ok k1 → row_key cols attributes row2 = Ok k2 →
  k1 = k2 ↔ ∀ a, a ∈ attributes → row_get cols row1 a = row_get cols row2 a.
Proof.
  intros H1 H2. split.
  - intros <-. by eapply for_each_agree.
  - intros Hagree. unfold row_key in *.
    rewrite (for_each_ext _ _ _ Hagree) in H1. congruence.
Qed.

Lemma row_keys_eq_iff df attributes keys i j :
  row_keys df attributes = Ok keys →
  i < length (data df) → j < length (data df) →
  keys !! i = keys !! j ↔ ∀ a, a ∈ attributes → loc df i a = loc df j a.
Proof.
  intros Hk [rowi Hi]%lookup_lt_is_Some_2 [rowj Hj]%lookup_lt_is_Some_2.
  pose proof (for_each_length _ _ _ Hk) as Hlen.
  destruct (lookup_lt_is_Some_2 keys i) as [ki Hki];
    [rewrite Hlen; by eapply lookup_lt_Some|].
  destruct (lookup_lt_is_Some_2 keys j) as [kj Hkj];
    [rewrite Hlen; by eapply lookup_lt_Some|].
  rewrite Hki, Hkj.
  apply (row_keys_lookup _ _ _ _ _ Hk) in Hki as (rowi' & Hi' & Hkeyi).
  apply (row_keys_lookup _ _ _ _ _ Hk) in Hkj as (rowj' & Hj' & Hkeyj).
  assert (rowi' = rowi) as -> by congruence.
  assert (rowj' = rowj) as -> by congruence.
  pose proof (row_key_eq_iff _ _ _ _ _ _ Hkeyi Hkeyj) as Hiff.
  split.
  - intros [= Heq] a Ha. rewrite (loc_row_get _ _ _ _ Hi), (loc_row_get _ _ _ _ Hj).
    by apply Hiff.
  - intros Hagree. f_equal. apply Hiff. intros a Ha.
    rewrite <-(loc_row_get _ _ _ _ Hi), <-(loc_row_get _ _ _ _ Hj). by apply Hagree.
Qed.

Section same_class.
Context {keys : list (list string)} {P : list (list nat)}.
Context (HP : class_partition keys P).

Lemma cp_same_class i j :
  i < length keys →
  (∃ g, g ∈ P ∧ i ∈ g ∧ j ∈ g) ↔ keys !! i = keys !! j.
Proof.
  intros Hi. split.
  - intros (g & Hg & Hig & Hjg). by apply (cp_same_key HP g).
  - intros Hij. destruct (lookup_lt_is_Some_2 keys i Hi) as [k Hk].
    destruct (cp_cover _ _ HP i k Hk) as (g & Hg & Hig).
    exists g. split_and!; [done..|]. by apply (cp_closed HP g i).
Qed.
End same_class.

(** Partitions built from two key lists that identify the same pairs of
    rows are the same list of groups. *)
Lemma partition_set_mono keys keys' P F :
  class_partition keys P → class_partition keys' F →
  length keys = length keys' →
  (∀ i j, i < length keys → j < length keys →
     keys !! i = keys !! j ↔ keys' !! i = keys' !! j) →
  ∀ s, s ∈ partition_set P → s ∈ partition_set F.
Proof.
  intros HP HF Hlen Hrel s (g & Hg & ->)%elem_of_partition_set.
  destruct (cp_class _ _ HP g Hg) as (Hne & _ & _).
  destruct g as [|i g']; [done|]. set (g := i :: g') in *.
  assert (i ∈ g) as Hi by left.
  pose proof (cp_bound HP g i Hg Hi) as Hlt.
  destruct (lookup_lt_is_Some_2 keys' i) as [k' Hk']; [lia|].
  destruct (cp_cover _ _ HF i k' Hk') as (h & Hh & Hih).
  apply elem_of_partition_set. exists h. split; [done|].
  apply set_eq. intros j. rewrite !elem_of_list_to_set. split.
  - intros Hj. apply (cp_closed HF h i j Hh Hih). symmetry.
    apply Hrel; [done | by eapply (cp_bound HP) |]. by apply (cp_same_key HP g).
  - intros Hj. apply (cp_closed HP g i j Hg Hi). symmetry.
    apply Hrel; [done | rewrite Hlen; by eapply (cp_bound HF) |].
    by apply (cp_same_key HF h).
Qed.

Lemma classes_ext keys keys' P F :
  class_partition keys P → class_partition keys' F →
  length keys = length keys' →
  (∀ i j, i < length keys → j < length keys →
     keys !! i = keys !! j ↔ keys' !! i = keys' !! j) →
  P = F.
Proof.
  intros HP HF Hlen Hrel. apply (partition_set_inj keys keys'); [done..|].
  apply set_eq. intros s. split.
  - by apply (partition_set_mono keys keys').
  - apply (partition_set_mono keys' keys); [done..|].
    intros i j Hi Hj. symmetry. apply Hrel; lia.
Qed.

(** X1.  On a valid decision table, two objects are put in the same group by
    [equivalence_classes] exactly when their rows hold the same value under
    every requested attribute. *)
Theorem same_class_iff_indiscernible df attr_names attrs :
  valid_table df attr_names → attrs ⊆ attr_names →
  ∃ P, equivalence_classes df attrs = Ok P
    ∧ ∀ i j, i < length (data df) → j < length (data df) →
        (∃ g, g ∈ P ∧ i ∈ g ∧ j ∈ g)
        ↔ ∀ a, a ∈ attrs → loc df i a = loc df j a.
Proof.
  intros Hv Hsub.
  destruct (equivalence_classes_total df attr_names attrs Hv)
    as (keys & P & Hk & Hlen & HP & Hcp); [by eapply valid_table_attrs|].
  exists P. split; [done|]. intros i j Hi Hj.
  rewrite (cp_same_class Hcp) by lia. by apply row_keys_eq_iff.
Qed.

Lemma same_class_iff_indiscernible_witness :
  valid_table Samples.redundant4 ["A1"; "A2"] ∧ ["A1"] ⊆ ["A1"; "A2"] ∧
  ∃ P, equivalence_classes Samples.redundant4 ["A1"] = Ok P
    ∧ ∀ i j, i < length (data Samples.redundant4) →
        j < length (data Samples.redundant4) →
        (∃ g, g ∈ P ∧ i ∈ g ∧ j ∈ g)
        ↔ ∀ a, a ∈ ["A1"] →
            loc Samples.redundant4 i a = loc Samples.redundant4 j a.
Proof.
  assert (valid_table Samples.redundant4 ["A1"; "A2"]) as Hv by by_evaluation.
  assert (["A1"] ⊆ ["A1"; "A2"]) as Hsub by by_evaluation.
  split_and!; [done..|].
  exact (same_class_iff_indiscernible _ _ _ Hv Hsub).
Defined.

(** X2.  On a valid decision table, [equivalence_classes] lists the ids of
    every group in increasing order and the groups in the order of their
    first ids; when the table has a row, the first group starts with
    object 0. *)
Theorem classes_in_first_occurrence_order df attr_names attrs :
  valid_table df attr_names → attrs ⊆ attr_names →
  ∃ P, equivalence_classes df attrs = Ok P
    ∧ Forall (StronglySorted lt) P
    ∧ StronglySorted hd_lt P
    ∧ (data df ≠ [] → ∃ g rest, P = (0 :: g) :: rest).
Proof.
  intros Hv Hsub.
  destruct (equivalence_classes_total df attr_names attrs Hv)
    as (keys & P & Hk & Hlen & HP & Hcp); [by eapply valid_table_attrs|].
  exists P. split_and!; [done| |by destruct Hcp|].
  - apply Forall_forall. intros g Hg. by destruct (cp_class _ _ Hcp g Hg) as (_ & ? & _).
  - intros Hrows.
    destruct (lookup_lt_is_Some_2 keys 0) as [k0 Hk0].
    { rewrite Hlen. destruct (data df); [done | simpl; lia]. }
    destruct (cp_cover _ _ Hcp 0 k0 Hk0) as (h & Hh & H0h).
    assert (∀ g, g ∈ P → 0 ∈ g → ∃ g', g = 0 :: g') as Hmin.
    { intros g Hg H0. destruct (cp_class _ _ Hcp g Hg) as (_ & Hs & _).
      destruct g as [|x g']; [by apply elem_of_nil in H0|].
      apply StronglySorted_cons in Hs as [Hx _]. rewrite Forall_forall in Hx.
      apply elem_of_cons in H0 as [<-|H0%Hx]; [eauto | lia]. }
    destruct (Hmin h Hh H0h) as [h' ->].
    destruct P as [|g1 rest]; [by apply elem_of_nil in Hh|].
    apply elem_of_cons in Hh as [<-|Hh]; [eauto|].
    pose proof (cp_heads _ _ Hcp) as [Hg1 _]%StronglySorted_cons.
    rewrite Forall_forall in Hg1. specialize (Hg1 _ Hh).
    destruct g1; simpl in Hg1; [done | lia].
Qed.

Lemma classes_in_first_occurrence_order_witness :
  valid_table Samples.redundant4 ["A1"; "A2"] ∧ ["A2"] ⊆ ["A1"; "A2"] ∧
  ∃ P, equivalence_classes Samples.redundant4 ["A2"] = Ok P
    ∧ Forall (StronglySorted lt) P
    ∧ StronglySorted hd_lt P
    ∧ (data Samples.redundant4 ≠ [] → ∃ g rest, P = (0 :: g) :: rest).
Proof.
  assert (valid_table Samples.redundant4 ["A1"; "A2"]) as Hv by by_evaluation.
  assert (["A2"] ⊆ ["A1"; "A2"]) as Hsub by by_evaluation.
  split_and!; [done..|].
  exact (classes_in_first_occurrence_order _ _ _ Hv Hsub).
Defined.

(** X3.  On a valid decision table, the result of [equivalence_classes]
    depends only on which attributes are requested: two attribute lists
    with the same members, in any order and with any repetitions, give the
    same list of groups. *)
Theorem attribute_order_irrelevant df attr_names attrs attrs' :
  valid_table df attr_names → attrs ⊆ attr_names →
  attrs ⊆ attrs' → attrs' ⊆ attrs →
  ∃ P, equivalence_classes df attrs = Ok P
    ∧ equivalence_classes df attrs' = Ok P.
Proof.
  intros Hv Hsub H1 H2.
  destruct (equivalence_classes_total df attr_names attrs Hv)
    as (keys & P & Hk & Hlen & HP & Hcp); [by eapply valid_table_attrs|].
  destruct (equivalence_classes_total df attr_names attrs' Hv)
    as (keys' & P' & Hk' & Hlen' & HP' & Hcp').
  { eapply valid_table_attrs; [done|]. by etrans. }
  exists P. split; [done|]. rewrite HP'. f_equal.
  apply (classes_ext keys' keys); [done..|lia|].
  intros i j Hi Hj.
  rewrite (row_keys_eq_iff _ _ _ _ _ Hk'), (row_keys_eq_iff _ _ _ _ _ Hk) by lia.
  split; intros H a Ha; apply H; auto.
Qed.

Lemma attribute_order_irrelevant_witness :
  valid_table Samples.redundant4 ["A1"; "A2"] ∧
  ["A1"; "A2"] ⊆ ["A1"; "A2"] ∧
  ["A1"; "A2"] ⊆ ["A2"; "A1"; "A2"] ∧ ["A2"; "A1"; "A2"] ⊆ ["A1"; "A2"] ∧
  ∃ P, equivalence_classes Samples.redundant4 ["A1"; "A2"] = Ok P
    ∧ equivalence_classes Samples.redundant4 ["A2"; "A1"; "A2"] = Ok P.
Proof.
  assert (valid_table Samples.redundant4 ["A1"; "A2"]) as Hv by by_evaluation.
  assert (["A1"; "A2"] ⊆ ["A1"; "A2"]) as Hsub by done.
  assert (["A1"; "A2"] ⊆ ["A2"; "A1"; "A2"]) as H1 by by_evaluation.
  assert (["A2"; "A1"; "A2"] ⊆ ["A1"; "A2"]) as H2 by by_evaluation.
  split_and!; [done..|].
  exact (attribute_order_irrelevant _ _ _ _ Hv Hsub H1 H2).
Defined.

(** X4.  With an empty attribute list every row has the empty key:
    [equivalence_classes] raises nothing on any frame and returns the single
    group of all row indices, or no group at all when the frame has no
    row. *)
Theorem no_attributes_one_class df :
  equivalence_classes df []
  = Ok (if decide (data df = []) then [] else [seq 0 (length (data df))]).
Proof.
  destruct (for_each_total (row_key (columns df) []) (data df)) as [keys Hk];
    [intros; by exists []|].
  fold (row_keys df []) in Hk.
  rewrite equivalence_classes_unfold, Hk. simpl. f_equal.
  pose proof (classes_partition keys) as Hcp.
  pose proof (for_each_length _ _ _ Hk) as Hlen.
  assert (∀ i k, keys !! i = Some k → k = []) as Hnil.
  { intros i k (row & _ & [= <-])%(row_keys_lookup _ _ _ _ _ Hk). done. }
  assert (∀ g, g ∈ classes keys → g = seq 0 (length (data df))) as Hall.
  { intros g Hg. destruct (cp_class _ _ Hcp g Hg) as (Hne & Hs & k & Hgk).
    apply sorted_ext; [done | apply seq_sorted|].
    intros i. rewrite Hgk, elem_of_seq. split.
    - intros ?%lookup_lt_Some. lia.
    - intros [_ Hi]. destruct (lookup_lt_is_Some_2 keys i) as [k' Hk']; [lia|].
      destruct g as [|j g']; [done|].
      assert (keys !! j = Some k) as Hj by (apply Hgk; left).
      by rewrite Hk', (Hnil _ _ Hk'), <-(Hnil _ _ Hj). }
  case_decide as Hd.
  - apply elem_of_nil_inv. intros g Hg.
    destruct (cp_class _ _ Hcp g Hg) as (Hne & _).
    destruct g as [|i g']; [done|].
    assert (i < length keys) as Hi by (eapply (cp_bound Hcp); [done | left]).
    rewrite Hlen, Hd in Hi. simpl in Hi. lia.
  - pose proof (cp_NoDup Hcp) as Hnd.
    destruct (lookup_lt_is_Some_2 keys 0) as [k0 Hk0].
    { rewrite Hlen. destruct (data df); [done | simpl; lia]. }
    destruct (cp_cover _ _ Hcp 0 k0 Hk0) as (h & Hh & _).
    destruct (classes keys) as [|g1 rest]; [by apply elem_of_nil in Hh|].
    rewrite (Hall g1) by left. f_equal.
    destruct rest as [|g2 rest]; [done|].
    apply NoDup_cons in Hnd as [Hnd _]. destruct Hnd.
    rewrite (Hall g1), (Hall g2); [left | right; left | left].
Qed.

(** ** More on [reducts] *)

Lemma reducts_loop_filter_elem df full attrs c :
  c ∈ filter (λ c, equivalence_classes df c = Ok full) (candidates attrs) ↔
  c ≠ [] ∧ c `sublist_of` attrs ∧ equivalence_classes df c = Ok full.
Proof. rewrite list_elem_of_filter, elem_of_candidates. tauto. Qed.

(** X5.  On a valid decision table, the list returned by [reducts] is closed
    under adding attributes: when it contains a list [c], it contains every
    subsequence of the condition attributes that extends [c]. *)
Theorem reducts_upward_closed df attr_names :
  valid_table df attr_names →
  ∃ red, reducts df attr_names = Ok red
    ∧ ∀ c c', c ∈ red → c `sublist_of` c' → c' `sublist_of` attr_names →
        c' ∈ red.
Proof.
  intros Hv.
  destruct (reducts_Ok df attr_names Hv) as (keys & F & Hk & HF & Hcp & Hred).
  eexists. split; [done|]. intros c c' Hc Hcc' Hc'.
  apply reducts_loop_filter_elem in Hc as (Hne & Hcsub & HcF).
  apply reducts_loop_filter_elem. split_and!; [|done|].
  { intros ->. apply sublist_nil_r in Hcc'. done. }
  pose proof (sublist_subseteq _ _ Hc') as Hc'sub.
  pose proof (sublist_subseteq _ _ Hcc') as Hcc'sub.
  destruct (equivalence_classes_total df attr_names c' Hv)
    as (keys' & P' & Hk' & Hlen' & HP' & Hcp'); [by eapply valid_table_attrs|].
  apply equivalence_classes_Ok in HcF as (keysc & Hkc & HFc).
  pose proof (classes_partition keysc) as Hcpc. rewrite <-HFc in Hcpc.
  pose proof (for_each_length _ _ _ Hk) as Hlen.
  pose proof (for_each_length _ _ _ Hkc) as Hlenc.
  rewrite HP'. f_equal. apply (classes_ext keys' keys); [done..|lia|].
  intros i j Hi Hj.
  assert (i < length (data df)) as Hi' by lia.
  assert (j < length (data df)) as Hj' by lia.
  split.
  - intros Hij. apply (cp_same_class Hcp); [lia|].
    apply (cp_same_class Hcpc); [lia|].
    apply (row_keys_eq_iff _ _ _ _ _ Hkc Hi' Hj').
    pose proof (proj1 (row_keys_eq_iff _ _ _ _ _ Hk' Hi' Hj') Hij) as Hagree.
    intros a Ha. by apply Hagree, Hcc'sub.
  - intros Hij. apply (row_keys_eq_iff _ _ _ _ _ Hk' Hi' Hj').
    pose proof (proj1 (row_keys_eq_iff _ _ _ _ _ Hk Hi' Hj') Hij) as Hagree.
    intros a Ha. by apply Hagree, Hc'sub.
Qed.

Lemma reducts_upward_closed_witness :
  valid_table Samples.redundant4 ["A1"; "A2"] ∧
  ∃ red, reducts Samples.redundant4 ["A1"; "A2"] = Ok red
    ∧ ∀ c c', c ∈ red → c `sublist_of` c' → c' `sublist_of` ["A1"; "A2"] →
        c' ∈ red.
Proof.
  assert (valid_table Samples.redundant4 ["A1"; "A2"]) as Hv by by_evaluation.
  split; [done|].
  exact (reducts_upward_closed _ _ Hv).
Defined.

Lemma combinations_full {A} (l : list A) : combinations l (length l) = [l].
Proof.
  induction l as [|x l IH]; simpl; [done|]. rewrite IH. simpl.
  assert (combinations l (S (length l)) = []) as ->; [|done].
  apply elem_of_nil_inv. intros c [Hs Hlen]%elem_of_combinations.
  apply sublist_length in Hs. lia.
Qed.

Lemma NoDup_combinations {A} (l : list A) r :
  NoDup l → NoDup (combinations l r).
Proof.
  intros Hl. revert r. induction Hl as [|x l Hx Hl IH]; intros [|r]; simpl.
  - apply NoDup_singleton.
  - constructor.
  - apply NoDup_singleton.
  - apply NoDup_app. split_and!.
    + apply (NoDup_fmap_2 _). apply IH.
    + intros c (c' & -> & _)%list_elem_of_fmap [Hs _]%elem_of_combinations.
      apply Hx. apply (sublist_subseteq _ _ Hs). left.
    + apply IH.
Qed.

Lemma NoDup_candidates attrs : NoDup attrs → NoDup (candidates attrs).
Proof.
  intros Hnd. unfold candidates. apply NoDup_bind.
  - intros r1 r2 c _ _ [_ <-]%elem_of_combinations [_ <-]%elem_of_combinations.
    done.
  - intros r _. by apply NoDup_combinations.
  - apply NoDup_seq.
Qed.

Lemma candidates_snoc attrs :
  attrs ≠ [] →
  candidates attrs
  = (r ← seq 1 (length attrs - 1); combinations attrs r) ++ [attrs].
Proof.
  intros Hne. unfold candidates.
  destruct attrs as [|a attrs]; [done|].
  cbn [length]. rewrite Nat.sub_succ, Nat.sub_0_r.
  rewrite (seq_S (length attrs) 1), bind_app. f_equal.
  change (1 + length attrs) with (length (a :: attrs)).
  rewrite bind_cons, combinations_full. done.
Qed.

Lemma candidates_by_size attrs :
  StronglySorted (λ c1 c2 : list string, length c1 ≤ length c2) (candidates attrs).
Proof.
  unfold candidates. generalize 1. induction (length attrs) as [|n IH]; intros s.
  - constructor.
  - cbn [seq]. rewrite bind_cons. apply StronglySorted_app_2; [| |apply IH].
    + intros c1 c2 [_ Hc1]%elem_of_combinations
        (r & [_ Hc2]%elem_of_combinations & Hr%elem_of_seq)%list_elem_of_bind.
      lia.
    + assert (∀ L : list (list string), Forall (λ c, length c = s) L →
        StronglySorted (λ c1 c2 : list string, length c1 ≤ length c2) L) as Hsame.
      { induction 1 as [|c L Hc HL IHL]; constructor; [done|].
        eapply Forall_impl; [exact HL|]. simpl. intros; lia. }
      apply Hsame, Forall_forall. by intros c [_ ?]%elem_of_combinations.
Qed.

Lemma StronglySorted_filter {A} (R : relation A) (Q : A → Prop)
    `{!∀ x, Decision (Q x)} l :
  StronglySorted R l → StronglySorted R (filter Q l).
Proof.
  induction 1 as [|x l Hs IH Hx]; [constructor|].
  rewrite filter_cons. case_decide; [|done]. constructor; [done|].
  rewrite Forall_forall in Hx |- *. intros y [_ ?]%list_elem_of_filter. auto.
Qed.

(** X6.  On a valid decision table with at least one condition attribute,
    [reducts] reports the attribute lists in the order it visits them: the
    result is a subsequence of the visited combinations, it repeats no
    list, the sizes never decrease along it, and its last entry is the full
    list of condition attributes. *)
Theorem reducts_in_visit_order df attr_names :
  valid_table df attr_names → attr_names ≠ [] →
  ∃ red, reducts df attr_names = Ok red
    ∧ red `sublist_of` candidates attr_names
    ∧ NoDup red
    ∧ StronglySorted (λ c1 c2 : list string, length c1 ≤ length c2) red
    ∧ last red = Some attr_names.
Proof.
  intros Hv Hne.
  destruct (reducts_Ok df attr_names Hv) as (keys & F & Hk & HF & Hcp & Hred).
  eexists. split; [done|]. split_and!.
  - apply sublist_filter.
  - apply NoDup_filter, NoDup_candidates.
    destruct Hv as (Hcols & Hnd & _). rewrite Hcols in Hnd.
    by apply NoDup_app in Hnd as (? & _).
  - apply StronglySorted_filter, candidates_by_size.
  - rewrite candidates_snoc by done. rewrite filter_app, filter_cons.
    rewrite decide_True by done. simpl. apply last_snoc.
Qed.

Lemma reducts_in_visit_order_witness :
  valid_table Samples.redundant4 ["A1"; "A2"] ∧ ["A1"; "A2"] ≠ [] ∧
  ∃ red, reducts Samples.redundant4 ["A1"; "A2"] = Ok red
    ∧ red `sublist_of` candidates ["A1"; "A2"]
    ∧ NoDup red
    ∧ StronglySorted (λ c1 c2 : list string, length c1 ≤ length c2) red
    ∧ last red = Some ["A1"; "A2"].
Proof.
  assert (valid_table Samples.redundant4 ["A1"; "A2"]) as Hv by by_evaluation.
  assert (["A1"; "A2"] ≠ []) as Hne by done.
  split_and!; [done..|].
  exact (reducts_in_visit_order _ _ Hv Hne).
Defined.

Section counting.
Context {A : Type}.
Implicit Types (f g : nat → list (list A)) (rs : list nat).

Lemma length_bind_app f g rs :
  length (rs ≫= λ r, f r ++ g r) = length (rs ≫= f) + length (rs ≫= g).
Proof.
  induction rs as [|r rs IH]; [done|].
  rewrite !bind_cons, !length_app, IH. lia.
Qed.

Lemma length_bind_fmap (h : list A → list A) f rs :
  length (rs ≫= λ r, h <$> f r) = length (rs ≫= f).
Proof.
  induction rs as [|r rs IH]; [done|].
  by rewrite !bind_cons, !length_app, length_fmap, IH.
Qed.

Lemma bind_seq_S f n :
  seq 0 (S n) ≫= f = f 0 ++ (seq 0 n ≫= f ∘ S).
Proof. cbn [seq]. by rewrite bind_cons, <-fmap_S_seq, list_fmap_bind. Qed.

Lemma combinations_0 (l : list A) : combinations l 0 = [[]].
Proof. by destruct l. Qed.

(** Counting the subsequences of every size. *)
Lemma combinations_total (l : list A) n :
  length l ≤ n → length (seq 0 (S n) ≫= combinations l) = 2 ^ length l.
Proof.
  revert n. induction l as [|x l IH]; intros n Hn.
  - rewrite bind_seq_S.
    assert (seq 0 n ≫= combinations (@nil A) ∘ S = []) as ->; [|done].
    induction (seq 0 n) as [|r rs IHrs]; [done|]. by rewrite bind_cons, IHrs.
  - simpl in Hn. destruct n as [|n]; [lia|].
    rewrite bind_seq_S, length_app.
    rewrite (list_bind_ext (combinations (x :: l) ∘ S)
               (λ r, (cons x <$> combinations l r) ++ combinations l (S r))
               (seq 0 (S n)) (seq 0 (S n))) by done.
    rewrite length_bind_app, length_bind_fmap, (IH n) by lia.
    pose proof (IH (S n)) as IH'. rewrite bind_seq_S, length_app in IH'.
    rewrite combinations_0 in IH' |- *.
    change (λ r, combinations l (S r)) with (combinations l ∘ S).
    cbn [length] in *. rewrite Nat.pow_succ_r'. lia.
Qed.
End counting.

(** X7.  The two nested loops of [reducts] visit every non-empty
    subsequence of the attribute list once: [2 ^ m - 1] combinations for [m]
    attributes. *)
Theorem candidates_count attrs :
  length (candidates attrs) = 2 ^ length attrs - 1.
Proof.
  pose proof (combinations_total attrs (length attrs) (le_n _)) as H.
  cbn [seq] in H. rewrite bind_cons, length_app, combinations_0 in H.
  assert (length (candidates attrs)
          = length (seq 1 (length attrs) ≫= combinations attrs)) as ->
    by reflexivity.
  change (length [@nil string]) with 1 in H. lia.
Qed.

(** X8.  With an empty attribute list [reducts] visits nothing: on every
    frame it returns the empty list, without exception. *)
Theorem reducts_no_attributes df : reducts df [] = Ok [].
Proof.
  unfold reducts. rewrite equivalence_classes_unfold.
  destruct (for_each_total (row_key (columns df) []) (data df)) as [keys Hk];
    [intros; by exists []|].
  unfold row_keys. by rewrite Hk.
Qed.

(** ** The approximations, object by object *)

Section approximations.
Context (df : DataFrame) (attr_names attrs : list string).
Context (Hv : valid_table df attr_names) (Hsub : attrs ⊆ attr_names).

Lemma decision_total i :
  i < length (data df) → ∃ d, loc df i "Decision" = Ok d.
Proof.
  intros Hi. apply (loc_total df attr_names); [done..|].
  by eapply valid_table_decision.
Qed.

(** Everything the proofs below need about the classes under [attrs]. *)
Lemma classes_context :
  ∃ eq, equivalence_classes df attrs = Ok eq
    ∧ (∀ cls i, cls ∈ eq → i ∈ cls → i < length (data df))
    ∧ (∀ cls, cls ∈ eq → cls ≠ [])
    ∧ (∀ i, i < length (data df) → ∃ cls, cls ∈ eq ∧ i ∈ cls)
    ∧ (∀ cls cls' i, cls ∈ eq → cls' ∈ eq → i ∈ cls → i ∈ cls' → cls = cls')
    ∧ (∀ cls i j, cls ∈ eq → i ∈ cls →
         j ∈ cls ↔ j < length (data df) ∧ indiscernible df attrs i j)
    ∧ (∀ cls, cls ∈ eq → ∃ decs, decisions_of df cls = Ok decs).
Proof.
  pose proof (valid_table_attrs _ _ _ Hv Hsub) as Hcols.
  destruct (equivalence_classes_total df attr_names attrs Hv Hcols)
    as (keys & eq & Hk & Hlen & Heq & Hcp).
  assert (∀ cls i, cls ∈ eq → i ∈ cls → i < length (data df)) as Hbound.
  { intros cls i ? ?. rewrite <-Hlen. by eapply (cp_bound Hcp). }
  exists eq. split_and!.
  - done.
  - exact Hbound.
  - intros cls Hcls. by destruct (cp_class _ _ Hcp cls Hcls) as (? & _).
  - intros i Hi. destruct (lookup_lt_is_Some_2 keys i) as [k Hik]; [lia|].
    by eapply (cp_cover _ _ Hcp).
  - intros cls cls' i. apply (cp_unique Hcp).
  - intros cls i j Hcls Hi. pose proof (Hbound cls i Hcls Hi) as Hilt. split.
    + intros Hj. pose proof (Hbound cls j Hcls Hj) as Hjlt. split; [done|].
      unfold indiscernible.
      apply (row_keys_eq_iff _ _ _ _ _ Hk Hilt Hjlt).
      by apply (cp_same_key Hcp cls).
    + intros [Hjlt Hij]. apply (cp_closed Hcp cls i j Hcls Hi). symmetry.
      by apply (row_keys_eq_iff _ _ _ _ _ Hk Hilt Hjlt).
  - intros cls Hcls. apply (decisions_of_total df attr_names); [done|].
    intros i. by apply Hbound.
Qed.

Lemma possible_iff d cls :
  (∀ i, i ∈ cls → i < length (data df)) →
  possible df d cls ↔ ∃ j, j ∈ cls ∧ loc df j "Decision" = Ok d.
Proof.
  intros Hcls.
  destruct (decisions_of_total df attr_names cls Hv Hcls) as [decs Hdecs].
  pose proof (elem_of_decisions_of df cls decs d Hdecs) as Hin.
  rewrite <-Hin. split.
  - intros (decs' & ? & ?). congruence.
  - intros ?. by exists decs.
Qed.

Lemma certain_iff d cls :
  (∀ i, i ∈ cls → i < length (data df)) → cls ≠ [] →
  certain df d cls ↔ ∀ j, j ∈ cls → loc df j "Decision" = Ok d.
Proof.
  intros Hcls Hne.
  destruct (decisions_of_total df attr_names cls Hv Hcls) as [decs Hdecs].
  pose proof (elem_of_decisions_of df cls decs) as Hin. split.
  - intros (decs' & Hd' & ->) j Hj.
    destruct (decision_total j (Hcls j Hj)) as [d' Hd].
    assert (d' ∈ decs) as Hd'in by (apply Hin; eauto).
    assert (decs = {[ d ]}) as -> by congruence.
    apply elem_of_singleton in Hd'in. by subst.
  - intros Hall. exists decs. split; [done|].
    apply set_eq. intros d'. rewrite elem_of_singleton, (Hin d') by done.
    split.
    + intros (i & Hi & Hloc). rewrite (Hall i Hi) in Hloc. congruence.
    + intros ->. destruct cls as [|i cls']; [done|].
      exists i. split; [left | apply Hall; left].
Qed.

(** The two results of [lower_upper], object by object. *)
Lemma lower_upper_objects d :
  ∃ lower upper, lower_upper df attrs d = Ok (lower, upper)
    ∧ StronglySorted lt lower ∧ StronglySorted lt upper
    ∧ (∀ i, i ∈ lower ↔
         i < length (data df)
         ∧ ∀ j, j < length (data df) → indiscernible df attrs i j →
             loc df j "Decision" = Ok d)
    ∧ (∀ i, i ∈ upper ↔
         i < length (data df)
         ∧ ∃ j, j < length (data df) ∧ indiscernible df attrs i j
             ∧ loc df j "Decision" = Ok d).
Proof.
  destruct classes_context
    as (eq & Heq & Hbound & Hne & Hcover & Huniq & Hrel & Hdecs).
  destruct (lower_upper_total df attr_names attrs d Hv) as (lower & upper & Hlu);
    [by eapply valid_table_attrs|].
  exists lower, upper. split; [done|].
  apply lower_upper_Ok in Hlu as (eq' & Heq' & Hl & Hu & Hsl & Hsu).
  assert (eq' = eq) as -> by congruence.
  split_and!; [done..| |].
  - intros i. rewrite Hl. split.
    + intros (cls & Hcls & Hi & Hc). split; [by eapply Hbound|].
      intros j Hj Hij.
      assert (∀ x, x ∈ cls → x < length (data df)) as Hb by eauto.
      apply (proj1 (certain_iff d cls Hb (Hne cls Hcls)) Hc).
      apply (Hrel cls i j Hcls Hi). done.
    + intros [Hi Hall]. destruct (Hcover i Hi) as (cls & Hcls & Hicls).
      exists cls. split_and!; [done..|].
      apply certain_iff; [by eauto..|]. intros j Hj.
      apply (Hrel cls i j Hcls Hicls) in Hj as [? ?]. by apply Hall.
  - intros i. rewrite Hu. split.
    + intros (cls & Hcls & Hi & Hp). split; [by eapply Hbound|].
      apply (possible_iff d cls) in Hp as (j & Hj & Hd); [|by eauto].
      apply (Hrel cls i j Hcls Hi) in Hj as [? ?]. eauto.
    + intros (Hi & j & Hj & Hij & Hd).
      destruct (Hcover i Hi) as (cls & Hcls & Hicls).
      exists cls. split_and!; [done..|].
      apply possible_iff; [by eauto|]. exists j. split; [|done].
      by apply (Hrel cls i j Hcls Hicls).
Qed.
End approximations.

Lemma indiscernible_refl df attrs i : indiscernible df attrs i i.
Proof. by intros a _. Qed.

Lemma indiscernible_weaken df attrs sub i j :
  sub ⊆ attrs → indiscernible df attrs i j → indiscernible df sub i j.
Proof. intros Hsub H a Ha. by apply H, Hsub. Qed.

(** X9.  On a valid decision table [lower_upper] computes the two
    approximations of rough set theory: an object is in [lower] exactly when
    every object indiscernible from it under [attrs] has the decision value,
    and in [upper] exactly when some object indiscernible from it has the
    decision value. *)
Theorem lower_upper_textbook df attr_names attrs d :
  valid_table df attr_names → attrs ⊆ attr_names →
  ∃ lower upper, lower_upper df attrs d = Ok (lower, upper)
    ∧ (∀ i, i ∈ lower ↔
         i < length (data df)
         ∧ ∀ j, j < length (data df) → indiscernible df attrs i j →
             loc df j "Decision" = Ok d)
    ∧ (∀ i, i ∈ upper ↔
         i < length (data df)
         ∧ ∃ j, j < length (data df) ∧ indiscernible df attrs i j
             ∧ loc df j "Decision" = Ok d).
Proof.
  intros Hv Hsub.
  destruct (lower_upper_objects df attr_names attrs Hv Hsub d)
    as (lower & upper & Hlu & _ & _ & Hl & Hu).
  by exists lower, upper.
Qed.

Lemma lower_upper_textbook_witness :
  valid_table Samples.redundant4 ["A1"; "A2"] ∧ ["A1"] ⊆ ["A1"; "A2"] ∧
  ∃ lower upper, lower_upper Samples.redundant4 ["A1"] "P" = Ok (lower, upper)
    ∧ (∀ i, i ∈ lower ↔
         i < length (data Samples.redundant4)
         ∧ ∀ j, j < length (data Samples.redundant4) →
             indiscernible Samples.redundant4 ["A1"] i j →
             loc Samples.redundant4 j "Decision" = Ok "P")
    ∧ (∀ i, i ∈ upper ↔
         i < length (data Samples.redundant4)
         ∧ ∃ j, j < length (data Samples.redundant4)
             ∧ indiscernible Samples.redundant4 ["A1"] i j
             ∧ loc Samples.redundant4 j "Decision" = Ok "P").
Proof.
  assert (valid_table Samples.redundant4 ["A1"; "A2"]) as Hv by by_evaluation.
  assert (["A1"] ⊆ ["A1"; "A2"]) as Hsub by by_evaluation.
  split_and!; [done..|].
  exact (lower_upper_textbook _ _ _ "P" Hv Hsub).
Defined.

(** X10.  On a valid decision table the concept "objects whose decision is
    [d]" lies between the two approximations: every object of [lower] has
    decision [d], and every object with decision [d] is in [upper]. *)
Theorem concept_between_approximations df attr_names attrs d :
  valid_table df attr_names → attrs ⊆ attr_names →
  ∃ lower upper, lower_upper df attrs d = Ok (lower, upper)
    ∧ (∀ i, i ∈ lower → loc df i "Decision" = Ok d)
    ∧ (∀ i, loc df i "Decision" = Ok d → i ∈ upper).
Proof.
  intros Hv Hsub.
  destruct (lower_upper_objects df attr_names attrs Hv Hsub d)
    as (lower & upper & Hlu & _ & _ & Hl & Hu).
  exists lower, upper. split_and!; [done| |].
  - intros i [Hi Hall]%Hl. apply Hall; [done | apply indiscernible_refl].
  - intros i Hd. pose proof (loc_Ok_lt _ _ _ _ Hd) as Hi. apply Hu.
    split; [done|]. exists i. split_and!; [done | apply indiscernible_refl | done].
Qed.

Lemma concept_between_approximations_witness :
  valid_table Samples.conflict2 ["A1"] ∧ ["A1"] ⊆ ["A1"] ∧
  ∃ lower upper, lower_upper Samples.conflict2 ["A1"] "P" = Ok (lower, upper)
    ∧ (∀ i, i ∈ lower → loc Samples.conflict2 i "Decision" = Ok "P")
    ∧ (∀ i, loc Samples.conflict2 i "Decision" = Ok "P" → i ∈ upper).
Proof.
  assert (valid_table Samples.conflict2 ["A1"]) as Hv by by_evaluation.
  assert (["A1"] ⊆ ["A1"]) as Hsub by done.
  split_and!; [done..|].
  exact (concept_between_approximations _ _ _ "P" Hv Hsub).
Defined.

(** X11.  On a valid decision table, a decision value that no object
    carries is not an error: [lower_upper] returns two empty lists. *)
Theorem absent_decision_empty df attr_names attrs d :
  valid_table df attr_names → attrs ⊆ attr_names →
  (∀ i, loc df i "Decision" ≠ Ok d) →
  lower_upper df attrs d = Ok ([], []).
Proof.
  intros Hv Hsub Habsent.
  destruct (lower_upper_objects df attr_names attrs Hv Hsub d)
    as (lower & upper & Hlu & _ & _ & Hl & Hu).
  assert (upper = []) as ->.
  { apply elem_of_nil_inv. intros i (_ & j & _ & _ & Hd)%Hu. by apply (Habsent j). }
  assert (lower = []) as ->; [|done].
  apply elem_of_nil_inv. intros i [Hi Hall]%Hl.
  apply (Habsent i). apply Hall; [done | apply indiscernible_refl].
Qed.

Lemma absent_decision_empty_witness :
  valid_table Samples.consistent3 ["A1"; "A2"] ∧
  ["A1"; "A2"] ⊆ ["A1"; "A2"] ∧
  (∀ i, loc Samples.consistent3 i "Decision" ≠ Ok "Z") ∧
  lower_upper Samples.consistent3 ["A1"; "A2"] "Z" = Ok ([], []).
Proof.
  assert (valid_table Samples.consistent3 ["A1"; "A2"]) as Hv by by_evaluation.
  assert (["A1"; "A2"] ⊆ ["A1"; "A2"]) as Hsub by done.
  assert (∀ i, loc Samples.consistent3 i "Decision" ≠ Ok "Z") as Habsent.
  { intros [|[|[|i]]]; vm_compute; discriminate. }
  split_and!; [done..|].
  exact (absent_decision_empty _ _ _ "Z" Hv Hsub Habsent).
Defined.

(** X13.  On a valid decision table, the lower approximations of two
    different decision values share no object. *)
Theorem lower_approximations_disjoint df attr_names attrs d d' :
  valid_table df attr_names → attrs ⊆ attr_names → d ≠ d' →
  ∃ lower upper lower' upper',
    lower_upper df attrs d = Ok (lower, upper)
    ∧ lower_upper df attrs d' = Ok (lower', upper')
    ∧ lower ## lower'.
Proof.
  intros Hv Hsub Hne.
  destruct (lower_upper_objects df attr_names attrs Hv Hsub d)
    as (lower & upper & Hlu & _ & _ & Hl & _).
  destruct (lower_upper_objects df attr_names attrs Hv Hsub d')
    as (lower' & upper' & Hlu' & _ & _ & Hl' & _).
  exists lower, upper, lower', upper'. split_and!; [done..|].
  intros i [Hi Hall]%Hl [_ Hall']%Hl'.
  pose proof (Hall i Hi (indiscernible_refl _ _ _)).
  pose proof (Hall' i Hi (indiscernible_refl _ _ _)). congruence.
Qed.

Lemma lower_approximations_disjoint_witness :
  valid_table Samples.consistent3 ["A1"; "A2"] ∧
  ["A1"; "A2"] ⊆ ["A1"; "A2"] ∧ "P" ≠ "N" ∧
  ∃ lower upper lower' upper',
    lower_upper Samples.consistent3 ["A1"; "A2"] "P" = Ok (lower, upper)
    ∧ lower_upper Samples.consistent3 ["A1"; "A2"] "N" = Ok (lower', upper')
    ∧ lower ## lower'.
Proof.
  assert (valid_table Samples.consistent3 ["A1"; "A2"]) as Hv by by_evaluation.
  assert (["A1"; "A2"] ⊆ ["A1"; "A2"]) as Hsub by done.
  assert ("P" ≠ "N") as Hne by done.
  split_and!; [done..|].
  exact (lower_approximations_disjoint _ _ _ _ _ Hv Hsub Hne).
Defined.

Lemma subset_length (l k : list nat) :
  NoDup l → l ⊆ k → length l ≤ length k.
Proof. intros Hl Hlk. by apply submseteq_length, NoDup_submseteq. Qed.

Lemma accuracy_mono (l u l' u' : list nat) :
  length l ≤ length l' → length l' ≤ length u' → length u' ≤ length u →
  (accuracy l u <= accuracy l' u')%Q.
Proof.
  intros H1 H2 H3. unfold accuracy. repeat case_decide; unfold Qle; simpl;
    rewrite ?Zpos_of_nat by done; nia.
Qed.

(** X12.  On a valid decision table, asking for more attributes sharpens
    both approximations: with [sub] drawn from [attrs], the lower
    approximation under [sub] is inside the one under [attrs], the upper
    approximation under [attrs] is inside the one under [sub], and the
    accuracy under [sub] is at most the accuracy under [attrs]. *)
Theorem finer_attributes_sharper df attr_names attrs sub d :
  valid_table df attr_names → attrs ⊆ attr_names → sub ⊆ attrs →
  ∃ l u l' u',
    lower_upper df sub d = Ok (l, u)
    ∧ lower_upper df attrs d = Ok (l', u')
    ∧ l ⊆ l' ∧ u' ⊆ u
    ∧ (accuracy l u <= accuracy l' u')%Q.
Proof.
  intros Hv Hattrs Hsub.
  assert (sub ⊆ attr_names) as Hsub' by by etrans.
  destruct (lower_upper_objects df attr_names sub Hv Hsub' d)
    as (l & u & Hlu & Hsl & Hsu & Hl & Hu).
  destruct (lower_upper_objects df attr_names attrs Hv Hattrs d)
    as (l' & u' & Hlu' & Hsl' & Hsu' & Hl' & Hu').
  assert (l ⊆ l') as Hll'.
  { intros i [Hi Hall]%Hl. apply Hl'. split; [done|]. intros j Hj Hij.
    apply Hall; [done|]. by apply (indiscernible_weaken df attrs sub). }
  assert (u' ⊆ u) as Huu'.
  { intros i (Hi & j & Hj & Hij & Hd)%Hu'. apply Hu. split; [done|].
    exists j. split_and!; [done| |done]. by apply (indiscernible_weaken df attrs sub). }
  assert (l' ⊆ u') as Hlu''.
  { intros i [Hi Hall]%Hl'. apply Hu'. split; [done|]. exists i.
    split_and!; [done | apply indiscernible_refl|].
    apply Hall; [done | apply indiscernible_refl]. }
  exists l, u, l', u'. split_and!; [done..|].
  apply accuracy_mono.
  - apply subset_length; [by apply increasing_NoDup | done].
  - apply subset_length; [by apply increasing_NoDup | done].
  - apply subset_length; [by apply increasing_NoDup | done].
Qed.

Lemma finer_attributes_sharper_witness :
  valid_table Samples.redundant4 ["A1"; "A2"] ∧
  ["A1"; "A2"] ⊆ ["A1"; "A2"] ∧ ["A1"] ⊆ ["A1"; "A2"] ∧
  ∃ l u l' u',
    lower_upper Samples.redundant4 ["A1"] "P" = Ok (l, u)
    ∧ lower_upper Samples.redundant4 ["A1"; "A2"] "P" = Ok (l', u')
    ∧ l ⊆ l' ∧ u' ⊆ u
    ∧ (accuracy l u <= accuracy l' u')%Q.
Proof.
  assert (valid_table Samples.redundant4 ["A1"; "A2"]) as Hv by by_evaluation.
  assert (["A1"; "A2"] ⊆ ["A1"; "A2"]) as Hattrs by done.
  assert (["A1"] ⊆ ["A1"; "A2"]) as Hsub by by_evaluation.
  split_and!; [done..|].
  exact (finer_attributes_sharper _ _ _ _ "P" Hv Hattrs Hsub).
Defined.

(** X14.  On a valid decision table, the upper approximation is made of the
    lower approximation and the boundary, which share nothing:
    [len(lower) + len(boundary) = len(upper)], and the boundary is a
    strictly increasing list. *)
Theorem upper_is_lower_plus_boundary df attr_names attrs d :
  valid_table df attr_names → attrs ⊆ attr_names →
  ∃ lower upper, lower_upper df attrs d = Ok (lower, upper)
    ∧ StronglySorted lt (boundary lower upper)
    ∧ (∀ i, i ∈ upper ↔ i ∈ lower ∨ i ∈ boundary lower upper)
    ∧ length lower + length (boundary lower upper) = length upper.
Proof.
  intros Hv Hsub.
  destruct (lower_upper_objects df attr_names attrs Hv Hsub d)
    as (lower & upper & Hlu & Hsl%increasing_NoDup & Hsu%increasing_NoDup
        & Hl & Hu).
  assert (lower ⊆ upper) as Hsubset.
  { intros i [Hi Hall]%Hl. apply Hu. split; [done|]. exists i.
    split_and!; [done | apply indiscernible_refl|].
    apply Hall; [done | apply indiscernible_refl]. }
  assert (∀ i, i ∈ upper ↔ i ∈ lower ∨ i ∈ boundary lower upper) as Hsplit.
  { intros i. rewrite elem_of_boundary.
    destruct (decide (i ∈ lower)); [|tauto]. split; [tauto|]. intros _. auto. }
  exists lower, upper. split_and!; [done | apply sorted_increasing | done |].
  rewrite <-length_app. apply Permutation_length. symmetry.
  apply NoDup_Permutation; [done | |].
  - apply NoDup_app. split_and!; [done | | apply NoDup_sorted].
    intros i Hi [_ ?]%elem_of_boundary. done.
  - intros i. by rewrite elem_of_app.
Qed.

Lemma upper_is_lower_plus_boundary_witness :
  valid_table Samples.redundant4 ["A1"; "A2"] ∧ ["A1"] ⊆ ["A1"; "A2"] ∧
  ∃ lower upper, lower_upper Samples.redundant4 ["A1"] "P" = Ok (lower, upper)
    ∧ StronglySorted lt (boundary lower upper)
    ∧ (∀ i, i ∈ upper ↔ i ∈ lower ∨ i ∈ boundary lower upper)
    ∧ length lower + length (boundary lower upper) = length upper.
Proof.
  assert (valid_table Samples.redundant4 ["A1"; "A2"]) as Hv by by_evaluation.
  assert (["A1"] ⊆ ["A1"; "A2"]) as Hsub by by_evaluation.
  split_and!; [done..|].
  exact (upper_is_lower_plus_boundary _ _ _ "P" Hv Hsub).
Defined.

(** X15.  On a valid decision table, for a decision value that some object
    carries (the only values the run block asks about), [upper] is not
    empty, so the accuracy is the plain ratio and the guard for an empty
    [upper] is not taken; the accuracy is 1 exactly when the boundary is
    empty, and positive exactly when [lower] is not empty. *)
Theorem present_decision_accuracy df attr_names attrs d :
  valid_table df attr_names → attrs ⊆ attr_names →
  (∃ i, loc df i "Decision" = Ok d) →
  ∃ lower upper, lower_upper df attrs d = Ok (lower, upper)
    ∧ upper ≠ []
    ∧ accuracy lower upper
      = (Z.of_nat (length lower) # Pos.of_nat (length upper))%Q
    ∧ ((accuracy lower upper == 1)%Q ↔ boundary lower upper = [])
    ∧ ((0 < accuracy lower upper)%Q ↔ lower ≠ []).
Proof.
  intros Hv Hsub [i0 Hd0].
  destruct (lower_upper_objects df attr_names attrs Hv Hsub d)
    as (lower & upper & Hlu & Hsl%increasing_NoDup & Hsu%increasing_NoDup
        & Hl & Hu).
  assert (lower ⊆ upper) as Hsubset.
  { intros i [Hi Hall]%Hl. apply Hu. split; [done|]. exists i.
    split_and!; [done | apply indiscernible_refl|].
    apply Hall; [done | apply indiscernible_refl]. }
  assert (i0 ∈ upper) as Hi0.
  { pose proof (loc_Ok_lt _ _ _ _ Hd0). apply Hu. split; [done|]. exists i0.
    split_and!; [done | apply indiscernible_refl | done]. }
  assert (upper ≠ []) as Hne by (intros ->; by apply elem_of_nil in Hi0).
  assert (length upper ≠ 0) as Hlen by (by destruct upper).
  exists lower, upper. split_and!; [done..| | |].
  - unfold accuracy. by rewrite decide_False.
  - rewrite accuracy_one, boundary_empty, same_length_iff by done. tauto.
  - unfold accuracy. rewrite decide_False by done. unfold Qlt. simpl.
    destruct lower; simpl; split; (done || lia).
Qed.

Lemma present_decision_accuracy_witness :
  valid_table Samples.conflict2 ["A1"] ∧ ["A1"] ⊆ ["A1"] ∧
  (∃ i, loc Samples.conflict2 i "Decision" = Ok "N") ∧
  ∃ lower upper, lower_upper Samples.conflict2 ["A1"] "N" = Ok (lower, upper)
    ∧ upper ≠ []
    ∧ accuracy lower upper
      = (Z.of_nat (length lower) # Pos.of_nat (length upper))%Q
    ∧ ((accuracy lower upper == 1)%Q ↔ boundary lower upper = [])
    ∧ ((0 < accuracy lower upper)%Q ↔ lower ≠ []).
Proof.
  assert (valid_table Samples.conflict2 ["A1"]) as Hv by by_evaluation.
  assert (["A1"] ⊆ ["A1"]) as Hsub by done.
  assert (∃ i, loc Samples.conflict2 i "Decision" = Ok "N") as Hd
    by (exists 1; reflexivity).
  split_and!; [done..|].
  exact (present_decision_accuracy _ _ _ "N" Hv Hsub Hd).
Defined.

(** ** The conflicts, class by class and object by object *)

Lemma two_decisions (decs : gset string) :
  1 < size decs ↔ ∃ d d', d ∈ decs ∧ d' ∈ decs ∧ d ≠ d'.
Proof.
  split.
  - intros Hsz. destruct (size_pos_elem_of decs) as [d Hd]; [lia|].
    destruct (size_pos_elem_of (decs ∖ {[ d ]})) as [d' Hd'].
    { rewrite size_difference, size_singleton; [lia|].
      by apply singleton_subseteq_l. }
    apply elem_of_difference in Hd' as [Hd' Hne].
    exists d, d'. split_and!; [done..|]. intros ->. apply Hne.
    by apply elem_of_singleton.
  - intros (d & d' & Hd & Hd' & Hne).
    destruct (decide (1 < size decs)) as [|Hsz]; [done|]. destruct Hne.
    apply (size_singleton_inv decs); [|done..].
    assert (size decs ≠ 0); [|lia].
    apply size_non_empty_iff. intros He. rewrite He in Hd.
    by apply elem_of_empty in Hd.
Qed.

Lemma inconsistent_loop_omap df eq conflicts c :
  inconsistent_loop df eq conflicts = Ok c →
  c = conflicts ++ omap (conflict_of df) eq.
Proof.
  revert conflicts. induction eq as [|cls eq IH]; intros conflicts; simpl.
  - intros [= ->]. by rewrite app_nil_r.
  - intros (decs & Hdecs & H)%bind_Ok. unfold conflict_of at 1.
    rewrite Hdecs. case_decide.
    + apply IH in H as ->. by rewrite <-(assoc_L (++)).
    + by apply IH in H as ->.
Qed.

Lemma sublist_omap_fst df eq : (omap (conflict_of df) eq).*1 `sublist_of` eq.
Proof.
  induction eq as [|cls eq IH]; simpl; [constructor|].
  unfold conflict_of at 1. destruct (decisions_of df cls) as [decs|].
  - case_decide; simpl; by constructor.
  - by constructor.
Qed.

Section conflicts.
Context (df : DataFrame) (attr_names attrs : list string).
Context (Hv : valid_table df attr_names) (Hsub : attrs ⊆ attr_names).

(** The classes that hold two objects with different decisions. *)
Lemma conflict_of_Some (eq : list (list nat)) (cls : list nat) vals :
  (∀ cls i, cls ∈ eq → i ∈ cls → i < length (data df)) → cls ∈ eq →
  conflict_of df cls = Some (cls, vals) ↔
  (∃ i j d d', i ∈ cls ∧ j ∈ cls ∧ loc df i "Decision" = Ok d
     ∧ loc df j "Decision" = Ok d' ∧ d ≠ d')
  ∧ ∃ decs, decisions_of df cls = Ok decs ∧ vals = elements decs.
Proof.
  intros Hbound Hcls. unfold conflict_of.
  destruct (decisions_of_total df attr_names cls Hv) as [decs Hdecs];
    [by eauto|].
  rewrite Hdecs. pose proof (elem_of_decisions_of df cls decs) as Hin.
  assert (1 < size decs ↔
    ∃ i j d d', i ∈ cls ∧ j ∈ cls ∧ loc df i "Decision" = Ok d
      ∧ loc df j "Decision" = Ok d' ∧ d ≠ d') as Hsz.
  { rewrite two_decisions. split.
    - intros (d & d' & (i & ? & ?)%Hin & (j & ? & ?)%Hin & ?); [|done..].
      by exists i, j, d, d'.
    - intros (i & j & d & d' & ? & ? & ? & ? & ?). exists d, d'.
      split_and!; [apply Hin; eauto..|done]. }
  rewrite <-Hsz. case_decide; split.
  - intros [= <-]. split; [done|]. by exists decs.
  - intros (_ & decs' & ? & ->). repeat f_equal. congruence.
  - done.
  - intros [? _]. done.
Qed.

Lemma inconsistent_objects_context :
  ∃ eq conflicts,
    equivalence_classes df attrs = Ok eq
    ∧ inconsistent_objects df attrs = Ok conflicts
    ∧ conflicts = omap (conflict_of df) eq.
Proof.
  destruct (classes_context df attr_names attrs Hv Hsub)
    as (eq & Heq & Hbound & Hne & Hcover & Huniq & Hrel & Hdecs).
  destruct (inconsistent_loop_total df eq [] Hdecs) as [conflicts Hloop].
  exists eq, conflicts. split_and!; [done| |].
  - unfold inconsistent_objects. by rewrite Heq.
  - by apply inconsistent_loop_omap in Hloop.
Qed.
End conflicts.

(** X16.  On a valid decision table, [inconsistent_objects] reports, in the
    order of the classes, exactly the classes that hold two objects with
    different decisions; the values reported with a class are its distinct
    decisions, each once, and there are at least two of them. *)
Theorem conflicts_are_mixed_classes df attr_names attrs :
  valid_table df attr_names → attrs ⊆ attr_names →
  ∃ eq conflicts,
    equivalence_classes df attrs = Ok eq
    ∧ inconsistent_objects df attrs = Ok conflicts
    ∧ conflicts.*1 `sublist_of` eq
    ∧ (∀ cls, cls ∈ conflicts.*1 ↔
         cls ∈ eq
         ∧ ∃ i j d d', i ∈ cls ∧ j ∈ cls ∧ loc df i "Decision" = Ok d
             ∧ loc df j "Decision" = Ok d' ∧ d ≠ d')
    ∧ (∀ cls vals, (cls, vals) ∈ conflicts →
         NoDup vals ∧ 2 ≤ length vals
         ∧ ∀ d, d ∈ vals ↔ ∃ i, i ∈ cls ∧ loc df i "Decision" = Ok d).
Proof.
  intros Hv Hsub.
  destruct (classes_context df attr_names attrs Hv Hsub)
    as (eq & Heq & Hbound & _).
  destruct (inconsistent_objects_context df attr_names attrs Hv Hsub)
    as (eq' & conflicts & Heq' & Hio & ->).
  assert (eq' = eq) as -> by congruence.
  exists eq, (omap (conflict_of df) eq).
  split_and!; [done..|apply sublist_omap_fst| |].
  - intros cls. rewrite list_elem_of_fmap. split.
    + intros ([cls' vals] & -> & (c & Hc & Hsome)%list_elem_of_omap). simpl.
      assert (c = cls') as ->.
      { unfold conflict_of in Hsome. destruct (decisions_of df c); [|done].
        case_decide; congruence. }
      split; [done|].
      by apply (conflict_of_Some df attr_names Hv eq) in Hsome as [? _].
    + intros (Hcls & Hmixed).
      destruct (decisions_of_total df attr_names cls Hv) as [decs Hdecs];
        [by eauto|].
      exists (cls, elements decs). split; [done|].
      apply list_elem_of_omap. exists cls. split; [done|].
      apply (conflict_of_Some df attr_names Hv eq); [done..|]. eauto.
  - intros cls vals (c & Hc & Hsome)%list_elem_of_omap.
    assert (c = cls) as ->.
    { unfold conflict_of in Hsome. destruct (decisions_of df c); [|done].
      case_decide; congruence. }
    pose proof Hsome as Hsome'. unfold conflict_of in Hsome'.
    destruct (decisions_of df cls) as [decs|] eqn:Hdecs; [|done].
    case_decide as Hsz; [|done]. injection Hsome' as <-.
    split_and!.
    + apply NoDup_elements.
    + unfold size, set_size in Hsz. simpl in Hsz. lia.
    + intros d. rewrite elem_of_elements. by apply elem_of_decisions_of.
Qed.

Lemma conflicts_are_mixed_classes_witness :
  valid_table Samples.conflict2 ["A1"] ∧ ["A1"] ⊆ ["A1"] ∧
  ∃ eq conflicts,
    equivalence_classes Samples.conflict2 ["A1"] = Ok eq
    ∧ inconsistent_objects Samples.conflict2 ["A1"] = Ok conflicts
    ∧ conflicts.*1 `sublist_of` eq
    ∧ (∀ cls, cls ∈ conflicts.*1 ↔
         cls ∈ eq
         ∧ ∃ i j d d', i ∈ cls ∧ j ∈ cls
             ∧ loc Samples.conflict2 i "Decision" = Ok d
             ∧ loc Samples.conflict2 j "Decision" = Ok d' ∧ d ≠ d')
    ∧ (∀ cls vals, (cls, vals) ∈ conflicts →
         NoDup vals ∧ 2 ≤ length vals
         ∧ ∀ d, d ∈ vals ↔
             ∃ i, i ∈ cls ∧ loc Samples.conflict2 i "Decision" = Ok d).
Proof.
  assert (valid_table Samples.conflict2 ["A1"]) as Hv by by_evaluation.
  assert (["A1"] ⊆ ["A1"]) as Hsub by done.
  split_and!; [done..|].
  exact (conflicts_are_mixed_classes _ _ _ Hv Hsub).
Defined.

(** X17.  On a valid decision table, [inconsistent_objects] returns the
    empty list exactly when the decision is a function of the requested
    attributes: any two objects with the same values under [attrs] have
    the same decision. *)
Theorem no_conflict_iff_functional df attr_names attrs :
  valid_table df attr_names → attrs ⊆ attr_names →
  ∃ conflicts, inconsistent_objects df attrs = Ok conflicts
    ∧ (conflicts = [] ↔
       ∀ i j, i < length (data df) → j < length (data df) →
         indiscernible df attrs i j →
         loc df i "Decision" = loc df j "Decision").
Proof.
  intros Hv Hsub.
  destruct (classes_context df attr_names attrs Hv Hsub)
    as (eq & Heq & Hbound & Hne & Hcover & Huniq & Hrel & Hdecs).
  destruct (inconsistent_objects_context df attr_names attrs Hv Hsub)
    as (eq' & conflicts & Heq' & Hio & ->).
  assert (eq' = eq) as -> by congruence.
  eexists. split; [done|]. split.
  - intros Hnil i j Hi Hj Hij.
    destruct (decision_total df attr_names Hv i Hi) as [d Hd].
    destruct (decision_total df attr_names Hv j Hj) as [d' Hd'].
    destruct (decide (d = d')) as [->|Hne']; [congruence|]. exfalso.
    destruct (Hcover i Hi) as (cls & Hcls & Hicls).
    assert (j ∈ cls) as Hjcls by by apply (Hrel cls i j Hcls Hicls).
    destruct (Hdecs cls Hcls) as [decs Hdc].
    assert ((cls, elements decs) ∈ omap (conflict_of df) eq) as Hin.
    { apply list_elem_of_omap. exists cls. split; [done|].
      apply (conflict_of_Some df attr_names Hv eq); [done..|].
      split; [|by exists decs]. by exists i, j, d, d'. }
    rewrite Hnil in Hin. by apply elem_of_nil in Hin.
  - intros Hfun. apply elem_of_nil_inv.
    intros [cls vals] (c & Hc & Hsome)%list_elem_of_omap.
    assert (c = cls) as ->.
    { unfold conflict_of in Hsome. destruct (decisions_of df c); [|done].
      case_decide; congruence. }
    apply (conflict_of_Some df attr_names Hv eq) in Hsome
      as [(i & j & d & d' & Hi & Hj & Hd & Hd' & Hdd) _]; [|done..].
    apply Hdd. apply (Hrel cls i j Hc Hi) in Hj as [Hj Hij].
    specialize (Hfun i j (Hbound cls i Hc Hi) Hj Hij). congruence.
Qed.

Lemma no_conflict_iff_functional_witness :
  valid_table Samples.consistent3 ["A1"; "A2"] ∧
  ["A1"; "A2"] ⊆ ["A1"; "A2"] ∧
  ∃ conflicts, inconsistent_objects Samples.consistent3 ["A1"; "A2"] = Ok conflicts
    ∧ (conflicts = [] ↔
       ∀ i j, i < length (data Samples.consistent3) →
         j < length (data Samples.consistent3) →
         indiscernible Samples.consistent3 ["A1"; "A2"] i j →
         loc Samples.consistent3 i "Decision"
         = loc Samples.consistent3 j "Decision").
Proof.
  assert (valid_table Samples.consistent3 ["A1"; "A2"]) as Hv by by_evaluation.
  assert (["A1"; "A2"] ⊆ ["A1"; "A2"]) as Hsub by done.
  split_and!; [done..|].
  exact (no_conflict_iff_functional _ _ _ Hv Hsub).
Defined.

(** The objects of the reported classes and the boundary regions. *)
Lemma conflict_objects_iff df attr_names attrs :
  valid_table df attr_names → attrs ⊆ attr_names →
  ∃ conflicts, inconsistent_objects df attrs = Ok conflicts
    ∧ ∀ i, (∃ cls vals, (cls, vals) ∈ conflicts ∧ i ∈ cls)
        ↔ ∃ d lower upper, lower_upper df attrs d = Ok (lower, upper)
            ∧ i ∈ boundary lower upper.
Proof.
  intros Hv Hsub.
  destruct (classes_context df attr_names attrs Hv Hsub)
    as (eq & Heq & Hbound & Hne & Hcover & Huniq & Hrel & Hdecs).
  destruct (inconsistent_objects_context df attr_names attrs Hv Hsub)
    as (eq' & conflicts & Heq' & Hio & ->).
  assert (eq' = eq) as -> by congruence.
  assert (∀ d, ∃ lower upper, lower_upper df attrs d = Ok (lower, upper)
    ∧ (∀ x, x ∈ lower ↔ ∃ cls, cls ∈ eq ∧ x ∈ cls ∧ certain df d cls)
    ∧ (∀ x, x ∈ upper ↔ ∃ cls, cls ∈ eq ∧ x ∈ cls ∧ possible df d cls)) as Hlu.
  { intros d.
    destruct (lower_upper_total df attr_names attrs d Hv) as (lower & upper & Hlu);
      [by eapply valid_table_attrs|].
    exists lower, upper. split; [done|].
    apply lower_upper_Ok in Hlu as (eq' & Heq'' & Hl & Hu & _).
    by assert (eq' = eq) as -> by congruence. }
  eexists. split; [done|]. intros i. split.
  - intros (cls & vals & (c & Hc & Hsome)%list_elem_of_omap & Hi).
    unfold conflict_of in Hsome.
    destruct (decisions_of df c) as [decs|] eqn:Hdc; [|done].
    case_decide as Hsz; [|done]. injection Hsome as <- <-.
    destruct (decision_total df attr_names Hv i (Hbound c i Hc Hi)) as [d Hd].
    destruct (Hlu d) as (lower & upper & Hlud & Hl & Hu).
    exists d, lower, upper. split; [done|]. apply elem_of_boundary. split.
    + apply Hu. exists c. split_and!; [done..|]. exists decs. split; [done|].
      apply (elem_of_decisions_of _ _ _ _ Hdc). eauto.
    + intros (c' & Hc' & Hi' & decs' & Hdc' & Hsingle)%Hl.
      assert (c' = c) as -> by by apply (Huniq c' c i).
      assert (decs' = decs) as -> by congruence.
      rewrite Hsingle, size_singleton in Hsz. lia.
  - intros (d & lower & upper & Hlud & [Hiu Hil]%elem_of_boundary).
    destruct (Hlu d) as (lower' & upper' & Hlud' & Hl & Hu).
    assert (lower' = lower ∧ upper' = upper) as [-> ->]
      by (split; congruence).
    apply Hu in Hiu as (cls & Hcls & Hi & decs & Hdc & Hd).
    exists cls, (elements decs). split; [|done].
    apply list_elem_of_omap. exists cls. split; [done|].
    unfold conflict_of. rewrite Hdc.
    destruct (decide (1 < size decs)) as [|Hsz]; [done|]. destruct Hil.
    apply Hl. exists cls. split_and!; [done..|]. exists decs. split; [done|].
    apply set_eq. intros d'. rewrite elem_of_singleton. split; [|by intros ->].
    intros Hd'. apply (size_singleton_inv decs); [|done..].
    assert (size decs ≠ 0); [|lia].
    apply size_non_empty_iff. intros He. rewrite He in Hd.
    by apply elem_of_empty in Hd.
Qed.

(** X18.  On a valid decision table, the objects that [inconsistent_objects]
    reports are exactly the objects that lie in the boundary region of some
    decision value. *)
Theorem conflicts_are_boundaries df attr_names attrs :
  valid_table df attr_names → attrs ⊆ attr_names →
  ∃ conflicts, inconsistent_objects df attrs = Ok conflicts
    ∧ ∀ i, (∃ cls vals, (cls, vals) ∈ conflicts ∧ i ∈ cls)
        ↔ ∃ d lower upper, lower_upper df attrs d = Ok (lower, upper)
            ∧ i ∈ boundary lower upper.
Proof. apply conflict_objects_iff. Qed.

Lemma conflicts_are_boundaries_witness :
  valid_table Samples.conflict2 ["A1"] ∧ ["A1"] ⊆ ["A1"] ∧
  ∃ conflicts, inconsistent_objects Samples.conflict2 ["A1"] = Ok conflicts
    ∧ ∀ i, (∃ cls vals, (cls, vals) ∈ conflicts ∧ i ∈ cls)
        ↔ ∃ d lower upper,
            lower_upper Samples.conflict2 ["A1"] d = Ok (lower, upper)
            ∧ i ∈ boundary lower upper.
Proof.
  assert (valid_table Samples.conflict2 ["A1"]) as Hv by by_evaluation.
  assert (["A1"] ⊆ ["A1"]) as Hsub by done.
  split_and!; [done..|].
  exact (conflicts_are_boundaries _ _ _ Hv Hsub).
Defined.

(** ** More on [extract_rules] *)

(** What [extract_rules] returns on a valid table. *)
Lemma extract_rules_context df attr_names attrs :
  valid_table df attr_names → attrs ⊆ attr_names →
  ∃ rules ds,
    extract_rules df attrs = Ok rules
    ∧ column df "Decision" = Ok ds
    ∧ NoDup rules
    ∧ ∀ r, r ∈ rules ↔
        ∃ d lower upper idx,
          d ∈ ds ∧ lower_upper df attrs d = Ok (lower, upper)
          ∧ idx ∈ lower ∧ rule_of df attrs d idx = Ok r.
Proof.
  intros Hv Hsub.
  pose proof (valid_table_attrs _ _ _ Hv Hsub) as Hcols.
  destruct (classes_context df attr_names attrs Hv Hsub)
    as (eq & Heq & Hbound & _).
  destruct (column_total df attr_names "Decision" Hv) as [ds Hds];
    [by eapply valid_table_decision|].
  destruct (extract_rules_loop_total df attrs (unique ds) []) as [raw Hraw].
  { intros d _.
    destruct (lower_upper_total df attr_names attrs d Hv Hcols)
      as (lower & upper & Hlu).
    exists lower, upper. split; [done|]. intros idx Hidx.
    apply (rule_of_total df attr_names); [done..|].
    apply lower_upper_Ok in Hlu as (eq' & Heq' & Hl & _).
    assert (eq' = eq) as -> by congruence.
    apply Hl in Hidx as (cls & Hcls & Hidx & _). by eapply Hbound. }
  exists (sorted_str (list_to_set raw)), ds. split_and!.
  - unfold extract_rules. rewrite Hds. simpl. by rewrite Hraw.
  - done.
  - apply NoDup_sorted_str.
  - intros r.
    rewrite elem_of_sorted_str, elem_of_list_to_set,
      (extract_rules_loop_Ok _ _ _ _ _ Hraw), elem_of_nil.
    split.
    + intros [[]|(d & l & u & idx & Hd & ?)].
      exists d, l, u, idx. split; [by apply elem_of_unique | done].
    + intros (d & l & u & idx & Hd & ?). right.
      exists d, l, u, idx. split; [by apply elem_of_unique | done].
Qed.

Lemma rule_of_indiscernible df attrs d i j :
  indiscernible df attrs i j → rule_of df attrs d i = rule_of df attrs d j.
Proof.
  intros Hij. unfold rule_of.
  rewrite (for_each_ext (λ a, v ← loc df i a; Ok (a +:+ "=" +:+ v))
             (λ a, v ← loc df j a; Ok (a +:+ "=" +:+ v))); [done|].
  intros a Ha. by rewrite (Hij a Ha).
Qed.

(** X19.  On a valid decision table, objects that are indiscernible under
    [attrs] are given the same rule text, and [extract_rules] returns at
    most one rule per equivalence class. *)
Theorem at_most_one_rule_per_class df attr_names attrs :
  valid_table df attr_names → attrs ⊆ attr_names →
  ∃ rules eq,
    extract_rules df attrs = Ok rules
    ∧ equivalence_classes df attrs = Ok eq
    ∧ (∀ d i j, indiscernible df attrs i j →
         rule_of df attrs d i = rule_of df attrs d j)
    ∧ length rules ≤ length eq.
Proof.
  intros Hv Hsub.
  destruct (classes_context df attr_names attrs Hv Hsub)
    as (eq & Heq & Hbound & Hne & Hcover & Huniq & Hrel & Hdecs).
  destruct (extract_rules_context df attr_names attrs Hv Hsub)
    as (rules & ds & Hrules & Hds & Hnd & Hin).
  exists rules, eq. split_and!; [done..| |].
  { intros d i j. apply rule_of_indiscernible. }
  set (g := λ cls : list nat,
    match cls with
    | [] => ""
    | h :: _ =>
        match loc df h "Decision" with
        | Ok d => match rule_of df attrs d h with Ok r => r | Raise _ => "" end
        | Raise _ => ""
        end
    end).
  rewrite <-(length_fmap g eq). apply submseteq_length, NoDup_submseteq; [done|].
  intros r (d & lower & upper & idx & Hd & Hlu & Hidx & Hr)%Hin.
  destruct (lower_upper_objects df attr_names attrs Hv Hsub d)
    as (lower' & upper' & Hlu' & _ & _ & Hl & _).
  assert (lower' = lower) as -> by congruence.
  apply Hl in Hidx as [Hlt Hall].
  destruct (Hcover idx Hlt) as (cls & Hcls & Hidxcls).
  apply list_elem_of_fmap. exists cls. split; [|done].
  pose proof (Hne cls Hcls). destruct cls as [|h t]; [done|]. simpl.
  assert (h ∈ h :: t) as Hh by left.
  apply (Hrel _ idx h Hcls Hidxcls) in Hh as [Hhlt Hih].
  rewrite (Hall h Hhlt Hih), <-(rule_of_indiscernible df attrs d idx h Hih), Hr.
  done.
Qed.

Lemma at_most_one_rule_per_class_witness :
  valid_table Samples.redundant4 ["A1"; "A2"] ∧
  ["A1"; "A2"] ⊆ ["A1"; "A2"] ∧
  ∃ rules eq,
    extract_rules Samples.redundant4 ["A1"; "A2"] = Ok rules
    ∧ equivalence_classes Samples.redundant4 ["A1"; "A2"] = Ok eq
    ∧ (∀ d i j, indiscernible Samples.redundant4 ["A1"; "A2"] i j →
         rule_of Samples.redundant4 ["A1"; "A2"] d i
         = rule_of Samples.redundant4 ["A1"; "A2"] d j)
    ∧ length rules ≤ length eq.
Proof.
  assert (valid_table Samples.redundant4 ["A1"; "A2"]) as Hv by by_evaluation.
  assert (["A1"; "A2"] ⊆ ["A1"; "A2"]) as Hsub by done.
  split_and!; [done..|].
  exact (at_most_one_rule_per_class _ _ _ Hv Hsub).
Defined.

(** X20.  On a valid decision table without conflicts under [attrs], every
    object contributes its rule: the text built from the object's row and
    its own decision is in the list returned by [extract_rules]. *)
Theorem consistent_table_rules_cover df attr_names attrs :
  valid_table df attr_names → attrs ⊆ attr_names →
  inconsistent_objects df attrs = Ok [] →
  ∃ rules, extract_rules df attrs = Ok rules
    ∧ ∀ i, i < length (data df) →
        ∃ d r, loc df i "Decision" = Ok d
          ∧ rule_of df attrs d i = Ok r ∧ r ∈ rules.
Proof.
  intros Hv Hsub Hnone.
  destruct (classes_context df attr_names attrs Hv Hsub)
    as (eq & Heq & Hbound & Hne & Hcover & Huniq & Hrel & Hdecs).
  destruct (inconsistent_objects_context df attr_names attrs Hv Hsub)
    as (eq' & conflicts & Heq' & Hio & Hconf).
  assert (eq' = eq) as -> by congruence.
  assert (conflicts = []) as -> by congruence.
  destruct (extract_rules_context df attr_names attrs Hv Hsub)
    as (rules & ds & Hrules & Hds & Hnd & Hin).
  exists rules. split; [done|]. intros i Hi.
  destruct (decision_total df attr_names Hv i Hi) as [d Hd].
  destruct (rule_of_total df attr_names attrs d i Hv) as [r Hr];
    [by eapply valid_table_attrs | done |].
  exists d, r. split_and!; [done..|]. apply Hin.
  destruct (lower_upper_objects df attr_names attrs Hv Hsub d)
    as (lower & upper & Hlu & _ & _ & Hl & _).
  exists d, lower, upper, i. split_and!; [|done| |done].
  { apply (elem_of_column _ _ _ _ Hds). eauto. }
  apply Hl. split; [done|]. intros j Hj Hij.
  destruct (decision_total df attr_names Hv j Hj) as [d' Hd'].
  destruct (decide (d = d')) as [->|Hdd]; [done|]. exfalso.
  destruct (Hcover i Hi) as (cls & Hcls & Hicls).
  assert (j ∈ cls) as Hjcls by by apply (Hrel cls i j Hcls Hicls).
  destruct (Hdecs cls Hcls) as [decs Hdc].
  assert ((cls, elements decs) ∈ omap (conflict_of df) eq) as Hmem.
  { apply list_elem_of_omap. exists cls. split; [done|].
    apply (conflict_of_Some df attr_names Hv eq); [done..|].
    split; [|by exists decs]. by exists i, j, d, d'. }
  rewrite <-Hconf in Hmem. by apply elem_of_nil in Hmem.
Qed.

Lemma consistent_table_rules_cover_witness :
  valid_table Samples.consistent3 ["A1"; "A2"] ∧
  ["A1"; "A2"] ⊆ ["A1"; "A2"] ∧
  inconsistent_objects Samples.consistent3 ["A1"; "A2"] = Ok [] ∧
  ∃ rules, extract_rules Samples.consistent3 ["A1"; "A2"] = Ok rules
    ∧ ∀ i, i < length (data Samples.consistent3) →
        ∃ d r, loc Samples.consistent3 i "Decision" = Ok d
          ∧ rule_of Samples.consistent3 ["A1"; "A2"] d i = Ok r ∧ r ∈ rules.
Proof.
  assert (valid_table Samples.consistent3 ["A1"; "A2"]) as Hv by by_evaluation.
  assert (["A1"; "A2"] ⊆ ["A1"; "A2"]) as Hsub by done.
  assert (inconsistent_objects Samples.consistent3 ["A1"; "A2"] = Ok []) as Hn
    by (vm_compute; reflexivity).
  split_and!; [done..|].
  exact (consistent_table_rules_cover _ _ _ Hv Hsub Hn).
Defined.

(** ** The table built by the input section *)

Lemma str_inj n m : Input.str n = Input.str m → n = m.
Proof.
  unfold Input.str. intros H. apply Unsigned.to_uint_inj.
  pose proof (NilEmpty.usu (Nat.to_uint n)) as Hn.
  rewrite H, NilEmpty.usu in Hn. congruence.
Qed.

Lemma attr_name_inj i j :
  "A" +:+ Input.str (i + 1) = "A" +:+ Input.str (j + 1) → i = j.
Proof. intros [= H%str_inj]. lia. Qed.

Lemma length_attr_names cols : length (Input.attr_names cols) = cols.
Proof. unfold Input.attr_names. by rewrite length_fmap, length_seq. Qed.

Lemma NoDup_input_columns cols : NoDup (Input.columns cols).
Proof.
  unfold Input.columns, Input.attr_names. apply NoDup_app. split_and!.
  - apply NoDup_fmap_2_strong; [|apply NoDup_seq].
    intros i j _ _. apply attr_name_inj.
  - intros c (i & -> & _)%list_elem_of_fmap Hin%list_elem_of_singleton.
    discriminate.
  - apply NoDup_singleton.
Qed.

Lemma length_input_row text_input cols r :
  length (Input.row text_input cols r) = cols + 1.
Proof.
  unfold Input.row, Input.columns.
  rewrite length_fmap, length_app, length_attr_names. done.
Qed.

Lemma has_empty_cell_false df :
  Run.has_empty_cell df = false ↔
  Forall (Forall (λ cell, cell ≠ "")) (data df).
Proof.
  unfold Run.has_empty_cell. rewrite <-not_true_iff_false, existsb_exists.
  rewrite Forall_forall. split.
  - intros Hno row Hrow. apply Forall_forall. intros cell Hcell ->.
    apply Hno. exists row. split; [by apply list_elem_of_In|].
    apply existsb_exists. exists "". split; [by apply list_elem_of_In | done].
  - intros Hall (row & Hrow%list_elem_of_In & (cell & Hcell%list_elem_of_In
      & Hc)%existsb_exists).
    apply bool_decide_eq_true in Hc as ->.
    specialize (Hall row Hrow). rewrite Forall_forall in Hall.
    by apply (Hall "").
Qed.

(** X21.  Whatever the user types, the frame built by the input section has
    the [cols] distinct attribute names ["A1"], ["A2"], ... followed by
    ["Decision"] as its columns and [rows] rows of [cols + 1] cells; it is a
    valid decision table exactly when the check for empty cells of the run
    block finds none. *)
Theorem input_frame_shape text_input rows cols :
  columns (Input.df text_input rows cols) = Input.attr_names cols ++ ["Decision"]
  ∧ length (Input.attr_names cols) = cols
  ∧ NoDup (columns (Input.df text_input rows cols))
  ∧ length (data (Input.df text_input rows cols)) = rows
  ∧ Forall (λ row, length row = cols + 1) (data (Input.df text_input rows cols))
  ∧ (Run.has_empty_cell (Input.df text_input rows cols) = false ↔
     valid_table (Input.df text_input rows cols) (Input.attr_names cols)).
Proof.
  assert (Forall (λ row, length row = cols + 1)
            (data (Input.df text_input rows cols))) as Hrows.
  { simpl. unfold Input.data. apply Forall_fmap, Forall_forall.
    intros r _. apply length_input_row. }
  split_and!.
  - done.
  - apply length_attr_names.
  - apply NoDup_input_columns.
  - simpl. unfold Input.data. by rewrite length_fmap, length_seq.
  - done.
  - rewrite has_empty_cell_false. unfold valid_table. split.
    + intros Hcells. split_and!; [done | apply NoDup_input_columns | | done].
      eapply Forall_impl; [exact Hrows|]. simpl. intros row ->.
      unfold Input.columns. by rewrite length_app, length_attr_names.
    + by intros (_ & _ & _ & ?).
Qed.

Lemma underscore_free_digits d :
  Input.underscore_free (NilEmpty.string_of_uint d) = true.
Proof. induction d; simpl; done. Qed.

Lemma underscore_free_column cols c :
  c ∈ Input.columns cols → Input.underscore_free c = true.
Proof.
  unfold Input.columns, Input.attr_names.
  intros [(i & -> & _)%list_elem_of_fmap | ->%list_elem_of_singleton]%elem_of_app.
  - simpl. apply underscore_free_digits.
  - reflexivity.
Qed.

Lemma key_split c1 c2 s1 s2 :
  Input.underscore_free c1 = true → Input.underscore_free c2 = true →
  c1 +:+ "_" +:+ s1 = c2 +:+ "_" +:+ s2 → c1 = c2 ∧ s1 = s2.
Proof.
  assert (∀ s, "" +:+ s = s) as Hnil by done.
  assert (∀ a s t, String a s +:+ t = String a (s +:+ t)) as Hcons by done.
  revert c2. induction c1 as [|a c1 IH]; intros [|b c2] H1 H2 H;
    rewrite ?Hnil, ?Hcons, ?Hnil in H; cbn in H1, H2.
  - by injection H as ->.
  - injection H as <- _. done.
  - injection H as -> _. done.
  - apply andb_true_iff in H1 as [_ H1]. apply andb_true_iff in H2 as [_ H2].
    injection H as -> H. destruct (IH c2 H1 H2 H) as [-> ->]. done.
Qed.

(** X22.  The widget keys [f"{c}_{r}"] that the input section hands to
    [st.text_input] are pairwise different, for any number of rows and of
    condition attributes. *)
Theorem widget_keys_distinct rows cols : NoDup (Input.keys rows cols).
Proof.
  unfold Input.keys. apply NoDup_bind; [| |apply NoDup_seq].
  - intros r1 r2 k _ _ (c1 & -> & Hc1)%list_elem_of_fmap
      (c2 & Hk & Hc2)%list_elem_of_fmap.
    apply key_split in Hk as [_ ?%str_inj];
      [done | by eapply underscore_free_column..].
  - intros r _. apply NoDup_fmap_2_strong; [|apply NoDup_input_columns].
    intros c1 c2 Hc1 Hc2 Hk.
    by apply key_split in Hk as [? _]; [|by eapply underscore_free_column..].
Qed.

(** ** The run block *)

Lemma approximate_Ok df attrs d a :
  Run.approximate df attrs d = Ok a ↔
  ∃ lower upper, lower_upper df attrs d = Ok (lower, upper)
    ∧ a = Run.Approximation d lower upper (boundary lower upper)
            (accuracy lower upper).
Proof.
  unfold Run.approximate. rewrite bind_Ok. split.
  - intros ([lower upper] & Hlu & [= <-]). by exists lower, upper.
  - intros (lower & upper & Hlu & ->). by exists (lower, upper).
Qed.

Lemma valid_no_empty_cell df attr_names :
  valid_table df attr_names → Run.has_empty_cell df = false.
Proof. intros (_ & _ & _ & ?). by apply has_empty_cell_false. Qed.

(** On a valid table the run block raises nothing and writes its four
    parts. *)
Lemma run_valid df attr_names :
  valid_table df attr_names →
  ∃ ds apps rds rules conflicts,
    column df "Decision" = Ok ds
    ∧ for_each (Run.approximate df attr_names) (unique ds) = Ok apps
    ∧ reducts df attr_names = Ok rds
    ∧ extract_rules df attr_names = Ok rules
    ∧ inconsistent_objects df attr_names = Ok conflicts
    ∧ Run.run df attr_names = Ok (Run.Analysed apps rds rules conflicts).
Proof.
  intros Hv. assert (attr_names ⊆ attr_names) as Hsub by done.
  destruct (extract_rules_context df attr_names attr_names Hv Hsub)
    as (rules & ds & Hrules & Hds & _).
  destruct (for_each_total (Run.approximate df attr_names) (unique ds))
    as [apps Happs].
  { intros d _.
    destruct (lower_upper_total df attr_names attr_names d Hv)
      as (lower & upper & Hlu); [by eapply valid_table_attrs|].
    eexists. apply approximate_Ok. eauto. }
  destruct (reducts_Ok df attr_names Hv) as (keys & F & _ & _ & _ & Hred).
  destruct (inconsistent_objects_context df attr_names attr_names Hv Hsub)
    as (eq & conflicts & _ & Hio & _).
  exists ds, apps. eexists _, rules, conflicts. split_and!; [done..|].
  unfold Run.run. rewrite (valid_no_empty_cell df attr_names Hv), Hds. simpl.
  rewrite Happs. simpl. rewrite Hred. simpl. rewrite Hrules. simpl.
  by rewrite Hio.
Qed.

(** X23.  With at least one condition attribute, the run block never fails
    on the frame built by the input section, whatever was typed: it stops
    at the validation when some cell is empty, and otherwise completes the
    analysis with a list of reducts that is not empty and ends with the
    full attribute list, so the branch that warns that no reduct was found
    is not taken. *)
Theorem run_on_input text_input rows cols :
  1 ≤ cols →
  (Run.has_empty_cell (Input.df text_input rows cols) = true →
     Run.run (Input.df text_input rows cols) (Input.attr_names cols)
     = Ok Run.Stopped)
  ∧ (Run.has_empty_cell (Input.df text_input rows cols) = false →
     ∃ apps rds rules conflicts,
       Run.run (Input.df text_input rows cols) (Input.attr_names cols)
       = Ok (Run.Analysed apps rds rules conflicts)
       ∧ rds ≠ []
       ∧ last rds = Some (Input.attr_names cols)).
Proof.
  intros Hcols. split.
  - intros He. unfold Run.run. by rewrite He.
  - intros He.
    assert (valid_table (Input.df text_input rows cols) (Input.attr_names cols))
      as Hv.
    { apply has_empty_cell_false in He. unfold valid_table.
      split_and!; [done | apply NoDup_input_columns | | done].
      simpl. unfold Input.data. apply Forall_fmap, Forall_forall.
      intros r _. simpl. rewrite length_input_row. unfold Input.columns.
      by rewrite length_app, length_attr_names. }
    destruct (run_valid _ _ Hv)
      as (ds & apps & rds & rules & conflicts & _ & _ & Hred & _ & _ & Hrun).
    exists apps, rds, rules, conflicts. split; [done|].
    destruct (reducts_Ok _ _ Hv) as (keys & F & _ & HF & _ & Hred').
    assert (Input.attr_names cols ≠ []) as Hne.
    { intros Hnil. pose proof (length_attr_names cols) as Hlen.
      rewrite Hnil in Hlen. simpl in Hlen. lia. }
    assert (last rds = Some (Input.attr_names cols)) as Hlast.
    { assert (rds = filter (λ c, equivalence_classes
                (Input.df text_input rows cols) c = Ok F)
                (candidates (Input.attr_names cols))) as -> by congruence.
      rewrite candidates_snoc by done. rewrite filter_app, filter_cons.
      rewrite decide_True by done. simpl. apply last_snoc. }
    split; [|done]. intros ->. done.
Qed.

Lemma run_on_input_witness :
  1 ≤ 1 ∧
  (Run.has_empty_cell (Input.df (λ _ _, "v") 2 1) = true →
     Run.run (Input.df (λ _ _, "v") 2 1) (Input.attr_names 1) = Ok Run.Stopped)
  ∧ (Run.has_empty_cell (Input.df (λ _ _, "v") 2 1) = false →
     ∃ apps rds rules conflicts,
       Run.run (Input.df (λ _ _, "v") 2 1) (Input.attr_names 1)
       = Ok (Run.Analysed apps rds rules conflicts)
       ∧ rds ≠ []
       ∧ last rds = Some (Input.attr_names 1)).
Proof.
  assert (1 ≤ 1) as Hcols by lia.
  split; [done|].
  exact (run_on_input (λ _ _, "v") 2 1 Hcols).
Defined.

Lemma lower_upper_shape df attr_names attrs d :
  valid_table df attr_names → attrs ⊆ attr_names →
  ∃ lower upper, lower_upper df attrs d = Ok (lower, upper)
    ∧ NoDup lower ∧ NoDup upper ∧ lower ⊆ upper
    ∧ (∀ i, loc df i "Decision" = Ok d → i ∈ upper)
    ∧ (∀ i, i ∈ upper → ∃ j, loc df j "Decision" = Ok d).
Proof.
  intros Hv Hsub.
  destruct (lower_upper_objects df attr_names attrs Hv Hsub d)
    as (lower & upper & Hlu & Hsl%increasing_NoDup & Hsu%increasing_NoDup
        & Hl & Hu).
  exists lower, upper. split_and!; [done..| | |].
  - intros i [Hi Hall]%Hl. apply Hu. split; [done|]. exists i.
    split_and!; [done | apply indiscernible_refl|].
    apply Hall; [done | apply indiscernible_refl].
  - intros i Hd. pose proof (loc_Ok_lt _ _ _ _ Hd). apply Hu. split; [done|].
    exists i. split_and!; [done | apply indiscernible_refl | done].
  - intros i (_ & j & _ & _ & Hd)%Hu. eauto.
Qed.

Lemma decisions_of_approximations df attrs ds apps :
  for_each (Run.approximate df attrs) ds = Ok apps →
  Run.a_decision <$> apps = ds.
Proof.
  rewrite for_each_Forall2. induction 1 as [|d a ds apps Ha _ IH]; [done|].
  rewrite fmap_cons, IH. f_equal.
  by apply approximate_Ok in Ha as (lower & upper & _ & ->).
Qed.

(** X24.  On a valid decision table the run block writes one approximation
    per distinct decision value of the table, in the order the values first
    appear; each holds the results of [lower_upper] for its value together
    with their boundary and the plain ratio [len(lower) / len(upper)], its
    upper approximation is not empty, and every object is in the upper
    approximation of one of them. *)
Theorem run_approximations df attr_names :
  valid_table df attr_names →
  ∃ ds apps rds rules conflicts,
    Run.run df attr_names = Ok (Run.Analysed apps rds rules conflicts)
    ∧ column df "Decision" = Ok ds
    ∧ Run.a_decision <$> apps = unique ds
    ∧ Forall (λ a,
        lower_upper df attr_names (Run.a_decision a)
        = Ok (Run.a_lower a, Run.a_upper a)
        ∧ Run.a_upper a ≠ []
        ∧ Run.a_boundary a = boundary (Run.a_lower a) (Run.a_upper a)
        ∧ Run.a_accuracy a
          = (Z.of_nat (length (Run.a_lower a))
             # Pos.of_nat (length (Run.a_upper a)))%Q) apps
    ∧ (∀ i, i < length (data df) → ∃ a, a ∈ apps ∧ i ∈ Run.a_upper a).
Proof.
  intros Hv. assert (attr_names ⊆ attr_names) as Hsub by done.
  destruct (run_valid df attr_names Hv)
    as (ds & apps & rds & rules & conflicts & Hds & Happs & _ & _ & _ & Hrun).
  exists ds, apps, rds, rules, conflicts. split_and!; [done..| | |].
  - exact (decisions_of_approximations _ _ _ _ Happs).
  - apply Forall_forall. intros a (d & Hd & Ha)%(for_each_elem_of _ _ _ _ Happs).
    apply approximate_Ok in Ha as (lower & upper & Hlu & ->). simpl.
    destruct (lower_upper_shape df attr_names attr_names d Hv Hsub)
      as (lower' & upper' & Hlu' & _ & _ & _ & Hin & _).
    assert (lower' = lower ∧ upper' = upper) as [-> ->] by (split; congruence).
    apply elem_of_unique, (elem_of_column _ _ _ _ Hds) in Hd as [i Hi].
    assert (upper ≠ []) as Hne.
    { intros ->. specialize (Hin i Hi). by apply elem_of_nil in Hin. }
    split_and!; [done..|]. unfold accuracy. rewrite decide_False; [done|].
    by destruct upper.
  - intros i Hi. destruct (decision_total df attr_names Hv i Hi) as [d Hd].
    assert (d ∈ unique ds) as Hdin.
    { apply elem_of_unique, (elem_of_column _ _ _ _ Hds). eauto. }
    destruct (lower_upper_shape df attr_names attr_names d Hv Hsub)
      as (lower & upper & Hlu & _ & _ & _ & Hin & _).
    exists (Run.Approximation d lower upper (boundary lower upper)
              (accuracy lower upper)).
    split; [|by apply Hin].
    apply (for_each_elem_of _ _ _ _ Happs). exists d. split; [done|].
    apply approximate_Ok. eauto.
Qed.

Lemma run_approximations_witness :
  valid_table Samples.redundant4 ["A1"; "A2"] ∧
  ∃ ds apps rds rules conflicts,
    Run.run Samples.redundant4 ["A1"; "A2"]
    = Ok (Run.Analysed apps rds rules conflicts)
    ∧ column Samples.redundant4 "Decision" = Ok ds
    ∧ Run.a_decision <$> apps = unique ds
    ∧ Forall (λ a,
        lower_upper Samples.redundant4 ["A1"; "A2"] (Run.a_decision a)
        = Ok (Run.a_lower a, Run.a_upper a)
        ∧ Run.a_upper a ≠ []
        ∧ Run.a_boundary a = boundary (Run.a_lower a) (Run.a_upper a)
        ∧ Run.a_accuracy a
          = (Z.of_nat (length (Run.a_lower a))
             # Pos.of_nat (length (Run.a_upper a)))%Q) apps
    ∧ (∀ i, i < length (data Samples.redundant4) →
         ∃ a, a ∈ apps ∧ i ∈ Run.a_upper a).
Proof.
  assert (valid_table Samples.redundant4 ["A1"; "A2"]) as Hv by by_evaluation.
  split; [done|].
  exact (run_approximations _ _ Hv).
Defined.

(** X25.  On a valid decision table the run block reports no conflict
    exactly when every boundary it writes is empty, and exactly when every
    accuracy it writes is 1. *)
Theorem no_conflict_iff_all_accurate df attr_names :
  valid_table df attr_names →
  ∃ apps rds rules conflicts,
    Run.run df attr_names = Ok (Run.Analysed apps rds rules conflicts)
    ∧ (conflicts = [] ↔ Forall (λ a, Run.a_boundary a = []) apps)
    ∧ (conflicts = [] ↔ Forall (λ a, (Run.a_accuracy a == 1)%Q) apps).
Proof.
  intros Hv. assert (attr_names ⊆ attr_names) as Hsub by done.
  destruct (run_valid df attr_names Hv)
    as (ds & apps & rds & rules & conflicts & Hds & Happs & _ & _ & Hio & Hrun).
  exists apps, rds, rules, conflicts. split; [done|].
  destruct (conflict_objects_iff df attr_names attr_names Hv Hsub)
    as (conflicts' & Hio' & Hobj).
  assert (conflicts' = conflicts) as -> by congruence.
  destruct (classes_context df attr_names attr_names Hv Hsub)
    as (eq & Heq & _ & Hne & _).
  destruct (inconsistent_objects_context df attr_names attr_names Hv Hsub)
    as (eq' & conflicts' & Heq' & Hio'' & Homap).
  assert (eq' = eq) as -> by congruence.
  assert (conflicts' = conflicts) as -> by congruence.
  assert (conflicts = [] ↔ Forall (λ a, Run.a_boundary a = []) apps) as Hb.
  { rewrite Forall_forall. split.
    - intros Hnil a (d & Hd & Ha)%(for_each_elem_of _ _ _ _ Happs).
      apply approximate_Ok in Ha as (lower & upper & Hlu & ->). simpl.
      apply elem_of_nil_inv. intros i Hi.
      destruct (proj2 (Hobj i)) as (cls & vals & Hin & _); [eauto|].
      rewrite Hnil in Hin. by apply elem_of_nil in Hin.
    - intros Hall. apply elem_of_nil_inv. intros [cls vals] Hin.
      assert (cls ∈ eq) as Hcls.
      { rewrite Homap in Hin.
        apply list_elem_of_omap in Hin as (c & Hc & Hsome).
        unfold conflict_of in Hsome. destruct (decisions_of df c); [|done].
        case_decide; [|done]. by injection Hsome as <- _. }
      pose proof (Hne cls Hcls). destruct cls as [|i cls']; [done|].
      destruct (proj1 (Hobj i)) as (d & lower & upper & Hlu & Hi).
      { exists (i :: cls'), vals. split; [done | left]. }
      destruct (lower_upper_shape df attr_names attr_names d Hv Hsub)
        as (lower' & upper' & Hlu' & _ & _ & _ & _ & Hpresent).
      assert (lower' = lower ∧ upper' = upper) as [-> ->] by (split; congruence).
      pose proof Hi as [Hiu _]%elem_of_boundary.
      destruct (Hpresent i Hiu) as [j Hj].
      assert (d ∈ unique ds) as Hd.
      { apply elem_of_unique, (elem_of_column _ _ _ _ Hds). eauto. }
      specialize (Hall (Run.Approximation d lower upper (boundary lower upper)
                          (accuracy lower upper))).
      simpl in Hall. rewrite Hall in Hi; [by apply elem_of_nil in Hi|].
      apply (for_each_elem_of _ _ _ _ Happs). exists d. split; [done|].
      apply approximate_Ok. eauto. }
  split; [done|]. rewrite Hb, !Forall_forall.
  apply forall_proper. intros a. split; intros Ha Hin; specialize (Ha Hin);
    apply (for_each_elem_of _ _ _ _ Happs) in Hin as (d & Hd & Hap);
    apply approximate_Ok in Hap as (lower & upper & Hlu & ->); simpl in *;
    destruct (lower_upper_shape df attr_names attr_names d Hv Hsub)
      as (lower' & upper' & Hlu' & Hndl & Hndu & Hsubset & Hin & _);
    assert (lower' = lower ∧ upper' = upper) as [-> ->] by (split; congruence);
    apply elem_of_unique, (elem_of_column _ _ _ _ Hds) in Hd as [i Hi];
    assert (upper ≠ []) as Hne'
      by (intros ->; specialize (Hin i Hi); by apply elem_of_nil in Hin).
  - apply accuracy_one. split; [done|].
    apply same_length_iff; [done..|]. by apply boundary_empty.
  - apply accuracy_one in Ha as [_ Hlen].
    apply boundary_empty. by apply same_length_iff.
Qed.

Lemma no_conflict_iff_all_accurate_witness :
  valid_table Samples.conflict2 ["A1"] ∧
  ∃ apps rds rules conflicts,
    Run.run Samples.conflict2 ["A1"]
    = Ok (Run.Analysed apps rds rules conflicts)
    ∧ (conflicts = [] ↔ Forall (λ a, Run.a_boundary a = []) apps)
    ∧ (conflicts = [] ↔ Forall (λ a, (Run.a_accuracy a == 1)%Q) apps).
Proof.
  assert (valid_table Samples.conflict2 ["A1"]) as Hv by by_evaluation.
  split; [done|].
  exact (no_conflict_iff_all_accurate _ _ Hv).
Defined.

(** X26.  On a valid decision table the run block has no rule to write
    exactly when every lower approximation it writes is empty. *)
Theorem no_rule_iff_all_lower_empty df attr_names :
  valid_table df attr_names →
  ∃ apps rds rules conflicts,
    Run.run df attr_names = Ok (Run.Analysed apps rds rules conflicts)
    ∧ (rules = [] ↔ Forall (λ a, Run.a_lower a = []) apps).
Proof.
  intros Hv. assert (attr_names ⊆ attr_names) as Hsub by done.
  destruct (run_valid df attr_names Hv)
    as (ds & apps & rds & rules & conflicts & Hds & Happs & _ & Hrules & _ & Hrun).
  exists apps, rds, rules, conflicts. split; [done|].
  destruct (extract_rules_context df attr_names attr_names Hv Hsub)
    as (rules' & ds' & Hrules' & Hds' & _ & Hin).
  assert (rules' = rules) as -> by congruence.
  assert (ds' = ds) as -> by congruence.
  rewrite Forall_forall. split.
  - intros Hnil a (d & Hd & Ha)%(for_each_elem_of _ _ _ _ Happs).
    apply approximate_Ok in Ha as (lower & upper & Hlu & ->). simpl.
    apply elem_of_nil_inv. intros i Hi.
    destruct (lower_upper_objects df attr_names attr_names Hv Hsub d)
      as (lower' & upper' & Hlu' & _ & _ & Hl & _).
    assert (lower' = lower) as -> by congruence.
    pose proof (proj1 (Hl i) Hi) as [Hlt _].
    destruct (rule_of_total df attr_names attr_names d i Hv) as [r Hr];
      [by eapply valid_table_attrs | done |].
    assert (r ∈ rules) as Hrin.
    { apply Hin. exists d, lower, upper, i.
      split_and!; [by apply elem_of_unique | done..]. }
    rewrite Hnil in Hrin. by apply elem_of_nil in Hrin.
  - intros Hall. apply elem_of_nil_inv.
    intros r (d & lower & upper & idx & Hd & Hlu & Hidx & _)%Hin.
    specialize (Hall (Run.Approximation d lower upper (boundary lower upper)
                        (accuracy lower upper))).
    simpl in Hall. rewrite Hall in Hidx; [by apply elem_of_nil in Hidx|].
    apply (for_each_elem_of _ _ _ _ Happs). exists d.
    split; [by apply elem_of_unique|]. apply approximate_Ok. eauto.
Qed.

Lemma no_rule_iff_all_lower_empty_witness :
  valid_table Samples.conflict2 ["A1"] ∧
  ∃ apps rds rules conflicts,
    Run.run Samples.conflict2 ["A1"]
    = Ok (Run.Analysed apps rds rules conflicts)
    ∧ (rules = [] ↔ Forall (λ a, Run.a_lower a = []) apps).
Proof.
  assert (valid_table Samples.conflict2 ["A1"]) as Hv by by_evaluation.
  split; [done|].
  exact (no_rule_iff_all_lower_empty _ _ Hv).
Defined.
